(** * Media-Manager: the in-memory movie store and its HTTP routes

    A shallow embedding of [shared/schema.ts], [server/storage.ts] and
    [server/routes.ts].

    Conventions of the embedding.
    - JavaScript numbers that the program uses as integers (page, limit,
      counts, millisecond time stamps) are [Z]; they stay far inside the
      range where doubles are exact.
    - A [Date] is its time value ([getTime()]), a [Z] of milliseconds.
    - Strings are [string]; [String.length] stands for the JavaScript
      [length] of the text.
    - The two sources of nondeterminism of the store, [randomUUID()] and
      [new Date()], are explicit arguments: the sixteen random bytes drawn
      and the clock reading.
    - [async] functions run to completion; a [Promise<T>] is its [T], a
      [throw] is the left injection of a sum. *)

From Stdlib Require Import ZArith List String Ascii Bool Lia.
From Stdlib Require Import QArith Qround.
From Stdlib Require Import Sorted Permutation Relations.
From Stdlib Require Import Strings.Byte.
Import ListNotations.

Local Open Scope string_scope.
Local Open Scope Z_scope.

(* ================================================================== *)
(** * The JavaScript runtime pieces the program relies on *)
(* ================================================================== *)

(** ** [Map<string, V>]

    A JavaScript [Map] iterates in insertion order; [set] on a key that is
    already present replaces the value in place and keeps the key's
    position, [set] on a new key appends. The order is observable through
    [values()], so the map is an association list in insertion order. *)
Module JSMap.
Section Defs.
Context {V : Type}.

Definition t := list (string * V).

Definition empty : t := [].

Fixpoint get (m : t) (k : string) : option V :=
  match m with
  | [] => None
  | (k', v) :: r => if String.eqb k' k then Some v else get r k
  end.

Fixpoint set (m : t) (k : string) (v : V) : t :=
  match m with
  | [] => [(k, v)]
  | (k', v') :: r =>
      if String.eqb k' k then (k', v) :: r else (k', v') :: set r k v
  end.

Definition delete (m : t) (k : string) : t :=
  filter (fun kv => negb (String.eqb (fst kv) k)) m.

Definition values (m : t) : list V := map snd m.

Definition keys (m : t) : list string := map fst m.

Definition size (m : t) : Z := Z.of_nat (List.length m).
End Defs.
Arguments t : clear implicits.
End JSMap.

(** ** Arrays *)
Module JSArray.
Section Defs.
Context {A : Type}.

(** [Array.prototype.sort(comparefn)]: a stable sort; [a] is placed
    before [b] when [comparefn(a, b) <= 0] and they met in that order.
    Insertion from the right keeps equal elements in their input
    order. *)
Fixpoint insert (comparefn : A -> A -> Z) (x : A) (l : list A) : list A :=
  match l with
  | [] => [x]
  | y :: r =>
      if comparefn x y <=? 0 then x :: y :: r
      else y :: insert comparefn x r
  end.

Definition sort (comparefn : A -> A -> Z) (l : list A) : list A :=
  fold_right (insert comparefn) [] l.

(** [Array.prototype.slice(start, end)] on integer arguments: a negative
    index counts from the end, both are clamped to [0 .. length]. *)
Definition slice (l : list A) (start end_ : Z) : list A :=
  let len := Z.of_nat (List.length l) in
  let k := if start <? 0 then Z.max (len + start) 0 else Z.min start len in
  let final := if end_ <? 0 then Z.max (len + end_) 0 else Z.min end_ len in
  firstn (Z.to_nat (final - k)) (skipn (Z.to_nat k) l).
End Defs.
End JSArray.

(** ** [Math.ceil(a / b)] on integers: divide in the rationals, round up. *)
Definition Math_ceil_div (a b : Z) : Z := Qceiling (inject_Z a / inject_Z b).

(** ** [crypto.randomUUID()]

    Node draws sixteen random bytes, forces the version nibble of byte 6
    to 4 and the two top bits of byte 8 to [10], and prints the bytes in
    lower-case hexadecimal with dashes after bytes 4, 6, 8 and 10. The
    random bytes are the argument [rnd]. *)
Definition hexDigit (n : N) : ascii :=
  nth (N.to_nat n) (list_ascii_of_string "0123456789abcdef") "0"%char.

Definition kHexByte (b : N) : string :=
  String (hexDigit (b / 16)) (String (hexDigit (b mod 16)) EmptyString).

Definition uuidByte (rnd : nat -> byte) (i : nat) : N :=
  let b := Byte.to_N (rnd i) in
  match i with
  | 6%nat => N.lor (N.land b 15) 64
  | 8%nat => N.lor (N.land b 63) 128
  | _ => b
  end.

Definition serializeUUID (u : nat -> N) : string :=
  kHexByte (u 0%nat) ++ kHexByte (u 1%nat) ++ kHexByte (u 2%nat)
    ++ kHexByte (u 3%nat) ++ "-"
    ++ kHexByte (u 4%nat) ++ kHexByte (u 5%nat) ++ "-"
    ++ kHexByte (u 6%nat) ++ kHexByte (u 7%nat) ++ "-"
    ++ kHexByte (u 8%nat) ++ kHexByte (u 9%nat) ++ "-"
    ++ kHexByte (u 10%nat) ++ kHexByte (u 11%nat) ++ kHexByte (u 12%nat)
    ++ kHexByte (u 13%nat) ++ kHexByte (u 14%nat) ++ kHexByte (u 15%nat).

Definition randomUUID (rnd : nat -> byte) : string :=
  serializeUUID (uuidByte rnd).

(* ================================================================== *)
(** * The zod validators the schemas are built from *)
(* ================================================================== *)

(** A parsed JSON request body. *)
#[local] Unset Elimination Schemes.
Inductive json : Type :=
| JNull
| JBool (b : bool)
| JNum (n : Z)
| JStr (s : string)
| JArr (l : list json)
| JObj (o : list (string * json)).
#[local] Set Elimination Schemes.

Module Zod.

(** [error.flatten()]: issues raised at the root of the input go to
    [formErrors], issues raised under a key go to [fieldErrors] under
    that key. *)
Record Flattened : Type := {
  formErrors : list string;
  fieldErrors : list (string * list string)
}.

(** The outcome of parsing one value: its issue messages, or the value. *)
Definition parsed (A : Type) : Type := (list string + A)%type.

Definition typeName (v : json) : string :=
  match v with
  | JNull => "null"
  | JBool _ => "boolean"
  | JNum _ => "number"
  | JStr _ => "string"
  | JArr _ => "array"
  | JObj _ => "object"
  end.

(** Reading a key of the body: [None] is JavaScript's [undefined]. The
    body is the object [JSON.parse] built, so a key occurs once. *)
Fixpoint prop (o : list (string * json)) (k : string) : option json :=
  match o with
  | [] => None
  | (k', v) :: r => if String.eqb k' k then Some v else prop r k
  end.

(** [z.string().min(lo, loMsg).max(hi)]; [hiMsg] is zod's own message
    for the upper bound. *)
Definition string_min_max (lo : nat) (loMsg : string) (hi : nat)
    (hiMsg : string) (v : option json) : parsed string :=
  match v with
  | None => inl ["Required"]
  | Some (JStr s) =>
      let tooSmall :=
        if (String.length s <? lo)%nat then [loMsg] else [] in
      let tooBig :=
        if (hi <? String.length s)%nat then [hiMsg] else [] in
      match (tooSmall ++ tooBig)%list with
      | [] => inr s
      | issues => inl issues
      end
  | Some other => inl ["Expected string, received " ++ typeName other]
  end.

(** [schema.optional()], what [partial()] wraps every field in: an
    absent key is accepted and stays absent. *)
Definition optional {A : Type} (p : option json -> parsed A)
    (v : option json) : parsed (option A) :=
  match v with
  | None => inr None
  | Some _ =>
      match p v with
      | inl issues => inl issues
      | inr a => inr (Some a)
      end
  end.

(** [z.string().uuid()]: eight, four, four, four and twelve hexadecimal
    digits of either case, separated by dashes. *)
Definition isHexDigit (c : ascii) : bool :=
  let n := nat_of_ascii c in
  ((48 <=? n) && (n <=? 57) || (97 <=? n) && (n <=? 102)
   || (65 <=? n) && (n <=? 70))%nat.

Fixpoint hexRun (n : nat) (s : string) : option string :=
  match n with
  | O => Some s
  | S n' =>
      match s with
      | String c r => if isHexDigit c then hexRun n' r else None
      | EmptyString => None
      end
  end.

Definition dash (s : string) : option string :=
  match s with
  | String c r => if Ascii.eqb c "-"%char then Some r else None
  | EmptyString => None
  end.

Definition andThen (x : option string) (f : string -> option string)
    : option string :=
  match x with
  | Some r => f r
  | None => None
  end.

Definition uuid (s : string) : bool :=
  match
    andThen (hexRun 8 s) (fun r =>
    andThen (dash r) (fun r =>
    andThen (hexRun 4 r) (fun r =>
    andThen (dash r) (fun r =>
    andThen (hexRun 4 r) (fun r =>
    andThen (dash r) (fun r =>
    andThen (hexRun 4 r) (fun r =>
    andThen (dash r) (fun r =>
    hexRun 12 r))))))))
  with
  | Some EmptyString => true
  | _ => false
  end.

(** A query parameter under [z.coerce.number()]: the parameter is
    absent, or [Number(...)] of it is [NaN], an integer, or a number
    with a fractional part. *)
Inductive coerced : Type :=
| Absent
| NaN
| Integer (n : Z)
| Fraction (q : Q).

(** [z.coerce.number().int().min(lo).max(hi).default(dflt)]; [hi] is
    [None] when the schema has no upper bound, [loMsg] and [hiMsg] are
    zod's own messages for the two bounds. Every check of a number is run
    and adds its own issue. *)
Definition int_min_max_default (lo : Z) (loMsg : string)
    (hi : option (Z * string)) (dflt : Z) (v : coerced) : parsed Z :=
  match v with
  | Absent => inr dflt
  | NaN => inl ["Expected number, received nan"]
  | Integer n =>
      let tooSmall := if n <? lo then [loMsg] else [] in
      let tooBig :=
        match hi with
        | Some (h, hiMsg) => if h <? n then [hiMsg] else []
        | None => []
        end in
      match (tooSmall ++ tooBig)%list with
      | [] => inr n
      | issues => inl issues
      end
  | Fraction q =>
      let tooSmall := if Qle_bool (inject_Z lo) q then [] else [loMsg] in
      let tooBig :=
        match hi with
        | Some (h, hiMsg) => if Qle_bool q (inject_Z h) then [] else [hiMsg]
        | None => []
        end in
      inl ("Expected integer, received float" :: tooSmall ++ tooBig)%list
  end.

End Zod.

(* ================================================================== *)
(** * shared/schema.ts *)
(* ================================================================== *)

(** The members of [z.enum(["Movie", "TV Show"])]. *)
Inductive MovieType : Type :=
| TMovie
| TTVShow.

(** The string each member is. *)
Definition literal (t : MovieType) : string :=
  match t with
  | TMovie => "Movie"
  | TTVShow => "TV Show"
  end.

(** [Movie = typeof movies.$inferSelect]: every column, [type] a plain
    [varchar]. *)
Module Movie.
Record t : Type := {
  id : string;
  title : string;
  type : string;
  director : string;
  budget : string;
  location : string;
  duration : string;
  yearTime : string;
  createdAt : Z;
  updatedAt : Z
}.
End Movie.

(** [InsertMovie = z.infer<typeof insertMovieSchema>]. *)
Module InsertMovie.
Record t : Type := {
  title : string;
  type : MovieType;
  director : string;
  budget : string;
  location : string;
  duration : string;
  yearTime : string
}.
End InsertMovie.

(** [Partial<InsertMovie>]: [None] is a key that is not there. *)
Module PartialInsertMovie.
Record t : Type := {
  title : option string;
  type : option MovieType;
  director : option string;
  budget : option string;
  location : option string;
  duration : option string;
  yearTime : option string
}.

Definition present {A : Type} (f : option A) : nat :=
  match f with
  | Some _ => 1%nat
  | None => 0%nat
  end.

(** [Object.keys(data).length]. *)
Definition keyCount (d : t) : nat :=
  (present (title d) + present (type d) + present (director d)
   + present (budget d) + present (location d) + present (duration d)
   + present (yearTime d))%nat.
End PartialInsertMovie.

Definition typeMessage : string := "Type must be either Movie or TV Show".

(** The per-field schemas of [insertMovieSchema]. *)
Definition titleSchema : option json -> Zod.parsed string :=
  Zod.string_min_max 2 "Title must be at least 2 characters" 255
    "String must contain at most 255 character(s)".

(** [z.enum(["Movie", "TV Show"], { errorMap })]: every issue of this
    field carries the message of the error map. *)
Definition typeSchema (v : option json) : Zod.parsed MovieType :=
  match v with
  | Some (JStr s) =>
      if String.eqb s "Movie" then inr TMovie
      else if String.eqb s "TV Show" then inr TTVShow
      else inl [typeMessage]
  | _ => inl [typeMessage]
  end.

Definition directorSchema : option json -> Zod.parsed string :=
  Zod.string_min_max 1 "Director is required" 255
    "String must contain at most 255 character(s)".

Definition budgetSchema : option json -> Zod.parsed string :=
  Zod.string_min_max 1 "Budget is required" 100
    "String must contain at most 100 character(s)".

Definition locationSchema : option json -> Zod.parsed string :=
  Zod.string_min_max 1 "Location is required" 255
    "String must contain at most 255 character(s)".

Definition durationSchema : option json -> Zod.parsed string :=
  Zod.string_min_max 1 "Duration is required" 50
    "String must contain at most 50 character(s)".

Definition yearTimeSchema : option json -> Zod.parsed string :=
  Zod.string_min_max 1 "Year/Time is required" 50
    "String must contain at most 50 character(s)".

(** The entry of [fieldErrors] one field contributes. *)
Definition issuesAt {A : Type} (key : string) (r : Zod.parsed A)
    : list (string * list string) :=
  match r with
  | inl issues => [(key, issues)]
  | inr _ => []
  end.

Definition notAnObject (body : json) : Zod.Flattened :=
  {| Zod.formErrors := ["Expected object, received " ++ Zod.typeName body];
     Zod.fieldErrors := [] |}.

(** [insertMovieSchema.safeParse(body)]: the seven keys are read off the
    body (any other key is dropped), every field is checked, and the
    parse succeeds when no field raised an issue. *)
Definition insertMovieSchema (body : json)
    : Zod.Flattened + InsertMovie.t :=
  match body with
  | JObj o =>
      let rTitle := titleSchema (Zod.prop o "title") in
      let rType := typeSchema (Zod.prop o "type") in
      let rDirector := directorSchema (Zod.prop o "director") in
      let rBudget := budgetSchema (Zod.prop o "budget") in
      let rLocation := locationSchema (Zod.prop o "location") in
      let rDuration := durationSchema (Zod.prop o "duration") in
      let rYearTime := yearTimeSchema (Zod.prop o "yearTime") in
      match rTitle, rType, rDirector, rBudget, rLocation, rDuration,
            rYearTime with
      | inr a, inr b, inr c, inr d, inr e, inr f, inr g =>
          inr {| InsertMovie.title := a; InsertMovie.type := b;
                 InsertMovie.director := c; InsertMovie.budget := d;
                 InsertMovie.location := e; InsertMovie.duration := f;
                 InsertMovie.yearTime := g |}
      | _, _, _, _, _, _, _ =>
          inl {| Zod.formErrors := [];
                 Zod.fieldErrors :=
                   (issuesAt "title" rTitle ++ issuesAt "type" rType
                    ++ issuesAt "director" rDirector
                    ++ issuesAt "budget" rBudget
                    ++ issuesAt "location" rLocation
                    ++ issuesAt "duration" rDuration
                    ++ issuesAt "yearTime" rYearTime)%list |}
      end
  | _ => inl (notAnObject body)
  end.

(** [insertMovieSchema.partial()]. *)
Definition insertMovieSchema_partial (body : json)
    : Zod.Flattened + PartialInsertMovie.t :=
  match body with
  | JObj o =>
      let rTitle := Zod.optional titleSchema (Zod.prop o "title") in
      let rType := Zod.optional typeSchema (Zod.prop o "type") in
      let rDirector := Zod.optional directorSchema (Zod.prop o "director") in
      let rBudget := Zod.optional budgetSchema (Zod.prop o "budget") in
      let rLocation := Zod.optional locationSchema (Zod.prop o "location") in
      let rDuration := Zod.optional durationSchema (Zod.prop o "duration") in
      let rYearTime := Zod.optional yearTimeSchema (Zod.prop o "yearTime") in
      match rTitle, rType, rDirector, rBudget, rLocation, rDuration,
            rYearTime with
      | inr a, inr b, inr c, inr d, inr e, inr f, inr g =>
          inr {| PartialInsertMovie.title := a;
                 PartialInsertMovie.type := b;
                 PartialInsertMovie.director := c;
                 PartialInsertMovie.budget := d;
                 PartialInsertMovie.location := e;
                 PartialInsertMovie.duration := f;
                 PartialInsertMovie.yearTime := g |}
      | _, _, _, _, _, _, _ =>
          inl {| Zod.formErrors := [];
                 Zod.fieldErrors :=
                   (issuesAt "title" rTitle ++ issuesAt "type" rType
                    ++ issuesAt "director" rDirector
                    ++ issuesAt "budget" rBudget
                    ++ issuesAt "location" rLocation
                    ++ issuesAt "duration" rDuration
                    ++ issuesAt "yearTime" rYearTime)%list |}
      end
  | _ => inl (notAnObject body)
  end.

(* ================================================================== *)
(** * server/storage.ts *)
(* ================================================================== *)

(** [MemStorage]: its one field, [movies]. *)
Definition MemStorage : Type := JSMap.t Movie.t.

(** [new MemStorage()]. *)
Definition newMemStorage : MemStorage := JSMap.empty.

(** The comparator of [getAllMovies]:
    [new Date(b.createdAt).getTime() - new Date(a.createdAt).getTime()]. *)
Definition byCreatedAt (a b : Movie.t) : Z :=
  Movie.createdAt b - Movie.createdAt a.

Definition getAllMovies (this : MemStorage) (page limit : Z) : list Movie.t :=
  let skip := (page - 1) * limit in
  let allMovies := JSArray.sort byCreatedAt (JSMap.values this) in
  JSArray.slice allMovies skip (skip + limit).

Definition getMovie (this : MemStorage) (id : string) : option Movie.t :=
  JSMap.get this id.

Definition getMoviesCount (this : MemStorage) : Z := JSMap.size this.

(** [{ ...insertMovie, id, createdAt: now, updatedAt: now }], stored under
    [id]. *)
Definition createMovie (this : MemStorage) (rnd : nat -> byte) (now : Z)
    (insertMovie : InsertMovie.t) : Movie.t * MemStorage :=
  let id := randomUUID rnd in
  let movie :=
    {| Movie.id := id;
       Movie.title := InsertMovie.title insertMovie;
       Movie.type := literal (InsertMovie.type insertMovie);
       Movie.director := InsertMovie.director insertMovie;
       Movie.budget := InsertMovie.budget insertMovie;
       Movie.location := InsertMovie.location insertMovie;
       Movie.duration := InsertMovie.duration insertMovie;
       Movie.yearTime := InsertMovie.yearTime insertMovie;
       Movie.createdAt := now;
       Movie.updatedAt := now |} in
  (movie, JSMap.set this id movie).

(** One key of [{ ...existing, ...update }]: the update's value when the
    update has the key, the existing value otherwise. *)
Definition spread {A : Type} (existing : A) (update : option A) : A :=
  match update with
  | Some v => v
  | None => existing
  end.

(** [throw new Error("Movie not found")] when the id is absent; otherwise
    [{ ...existingMovie, ...updateData, updatedAt: new Date() }], stored
    under [id]. *)
Definition updateMovie (this : MemStorage) (id : string)
    (updateData : PartialInsertMovie.t) (now : Z)
    : string + Movie.t * MemStorage :=
  match JSMap.get this id with
  | None => inl "Movie not found"
  | Some existingMovie =>
      let updatedMovie :=
        {| Movie.id := Movie.id existingMovie;
           Movie.title :=
             spread (Movie.title existingMovie)
               (PartialInsertMovie.title updateData);
           Movie.type :=
             spread (Movie.type existingMovie)
               (option_map literal (PartialInsertMovie.type updateData));
           Movie.director :=
             spread (Movie.director existingMovie)
               (PartialInsertMovie.director updateData);
           Movie.budget :=
             spread (Movie.budget existingMovie)
               (PartialInsertMovie.budget updateData);
           Movie.location :=
             spread (Movie.location existingMovie)
               (PartialInsertMovie.location updateData);
           Movie.duration :=
             spread (Movie.duration existingMovie)
               (PartialInsertMovie.duration updateData);
           Movie.yearTime :=
             spread (Movie.yearTime existingMovie)
               (PartialInsertMovie.yearTime updateData);
           Movie.createdAt := Movie.createdAt existingMovie;
           Movie.updatedAt := now |} in
      inr (updatedMovie, JSMap.set this id updatedMovie)
  end.

Definition deleteMovie (this : MemStorage) (id : string) : MemStorage :=
  JSMap.delete this id.

(* ================================================================== *)
(** * server/routes.ts *)
(* ================================================================== *)

Module Pagination.
Record t : Type := {
  page : Z;
  limit : Z;
  total : Z;
  pages : Z;
  hasNext : bool;
  hasPrev : bool
}.
End Pagination.

Module Response.
(** The [data] member of the envelope. *)
Inductive payload : Type :=
| NoData
| Null
| One (m : Movie.t)
| Many (l : list Movie.t).

(** [res.status(code).json({ status, message, data, errors, pagination,
    error })]; a member the handler leaves out is [NoData] or [None]. *)
Record t : Type := {
  code : Z;
  status : bool;
  message : string;
  data : payload;
  errors : option (list (string * list string));
  pagination : option Pagination.t;
  error : option string
}.
End Response.

(** [paginationSchema.safeParse(req.query)]. *)
Definition paginationSchema (qPage qLimit : Zod.coerced)
    : Zod.Flattened + Z * Z :=
  let rPage :=
    Zod.int_min_max_default 1 "Number must be greater than or equal to 1"
      None 1 qPage in
  let rLimit :=
    Zod.int_min_max_default 1 "Number must be greater than or equal to 1"
      (Some (100, "Number must be less than or equal to 100")) 10 qLimit in
  match rPage, rLimit with
  | inr page, inr limit => inr (page, limit)
  | _, _ =>
      inl {| Zod.formErrors := [];
             Zod.fieldErrors :=
               (issuesAt "page" rPage ++ issuesAt "limit" rLimit)%list |}
  end.

(** [idParamSchema.safeParse(req.params)]. *)
Definition idParamSchema (idParam : string) : Zod.Flattened + string :=
  if Zod.uuid idParam then inr idParam
  else inl {| Zod.formErrors := [];
              Zod.fieldErrors := [("id", ["Invalid movie ID format"])] |}.

Definition calculatePagination (page limit total : Z) : Pagination.t :=
  let pages := Math_ceil_div total limit in
  {| Pagination.page := page;
     Pagination.limit := limit;
     Pagination.total := total;
     Pagination.pages := pages;
     Pagination.hasNext := page <? pages;
     Pagination.hasPrev := 1 <? page |}.

(** The three failure envelopes of the handlers. *)
Definition badRequest (message : string) (e : Zod.Flattened) : Response.t :=
  {| Response.code := 400; Response.status := false;
     Response.message := message; Response.data := Response.NoData;
     Response.errors := Some (Zod.fieldErrors e);
     Response.pagination := None; Response.error := None |}.

Definition notFound : Response.t :=
  {| Response.code := 404; Response.status := false;
     Response.message := "Movie not found"; Response.data := Response.NoData;
     Response.errors := None; Response.pagination := None;
     Response.error := None |}.

Definition internalError (errorMessage : string) : Response.t :=
  {| Response.code := 500; Response.status := false;
     Response.message := "Internal server error";
     Response.data := Response.NoData; Response.errors := None;
     Response.pagination := None; Response.error := Some errorMessage |}.

Definition success (code : Z) (message : string) (data : Response.payload)
    (pagination : option Pagination.t) : Response.t :=
  {| Response.code := code; Response.status := true;
     Response.message := message; Response.data := data;
     Response.errors := None; Response.pagination := pagination;
     Response.error := None |}.

(** [GET /api/movies?page=&limit=]. *)
Definition GET_api_movies (storage : MemStorage) (qPage qLimit : Zod.coerced)
    : Response.t :=
  match paginationSchema qPage qLimit with
  | inl e => badRequest "Validation failed" e
  | inr (page, limit) =>
      let movies := getAllMovies storage page limit in
      let total := getMoviesCount storage in
      let pagination := calculatePagination page limit total in
      success 200 "Movies retrieved successfully" (Response.Many movies)
        (Some pagination)
  end.

(** [POST /api/movies]. *)
Definition POST_api_movies (storage : MemStorage) (rnd : nat -> byte)
    (now : Z) (body : json) : Response.t * MemStorage :=
  match insertMovieSchema body with
  | inl e => (badRequest "Validation failed" e, storage)
  | inr data =>
      let (movie, storage') := createMovie storage rnd now data in
      (success 201 "Movie created successfully" (Response.One movie) None,
       storage')
  end.

(** [GET /api/movies/:id]. *)
Definition GET_api_movies_id (storage : MemStorage) (idParam : string)
    : Response.t :=
  match idParamSchema idParam with
  | inl e => badRequest "Invalid movie ID format" e
  | inr id =>
      match getMovie storage id with
      | None => notFound
      | Some movie =>
          success 200 "Movie retrieved successfully" (Response.One movie)
            None
      end
  end.

Definition atLeastOneField : string :=
  "At least one field must be provided for update".

(** [insertMovieSchema.partial().refine(data => Object.keys(data).length
    > 0, { message })]: the refinement's issue is raised at the root. *)
Definition updateSchema (body : json)
    : Zod.Flattened + PartialInsertMovie.t :=
  match insertMovieSchema_partial body with
  | inl e => inl e
  | inr data =>
      if (0 <? PartialInsertMovie.keyCount data)%nat then inr data
      else inl {| Zod.formErrors := [atLeastOneField];
                  Zod.fieldErrors := [] |}
  end.

(** [PUT /api/movies/:id]. *)
Definition PUT_api_movies_id (storage : MemStorage) (now : Z)
    (idParam : string) (body : json) : Response.t * MemStorage :=
  match idParamSchema idParam with
  | inl e => (badRequest "Invalid movie ID format" e, storage)
  | inr id =>
      match updateSchema body with
      | inl e => (badRequest "Validation failed" e, storage)
      | inr data =>
          match getMovie storage id with
          | None => (notFound, storage)
          | Some _ =>
              match updateMovie storage id data now with
              | inl errorMessage => (internalError errorMessage, storage)
              | inr (updatedMovie, storage') =>
                  (success 200 "Movie updated successfully"
                     (Response.One updatedMovie) None, storage')
              end
          end
      end
  end.

(** [DELETE /api/movies/:id]. *)
Definition DELETE_api_movies_id (storage : MemStorage) (idParam : string)
    : Response.t * MemStorage :=
  match idParamSchema idParam with
  | inl e => (badRequest "Invalid movie ID format" e, storage)
  | inr id =>
      match getMovie storage id with
      | None => (notFound, storage)
      | Some _ =>
          (success 200 "Movie deleted successfully" Response.Null None,
           deleteMovie storage id)
      end
  end.

(* ================================================================== *)
(** * The store over time *)
(* ================================================================== *)

(** The store together with the last reading of the clock. Every
    [new Date()] reads a clock that does not run backwards: a mutation at
    time [now] is possible when [now] is not before the last reading. *)
Record World : Type := {
  movies : MemStorage;
  clock : Z
}.

Inductive step : World -> World -> Prop :=
| step_create (w : World) (rnd : nat -> byte) (now : Z)
    (insertMovie : InsertMovie.t) :
    clock w <= now ->
    step w {| movies := snd (createMovie (movies w) rnd now insertMovie);
              clock := now |}
| step_update (w : World) (id : string) (updateData : PartialInsertMovie.t)
    (now : Z) (updatedMovie : Movie.t) (movies' : MemStorage) :
    clock w <= now ->
    updateMovie (movies w) id updateData now = inr (updatedMovie, movies') ->
    step w {| movies := movies'; clock := now |}
| step_delete (w : World) (id : string) :
    step w {| movies := deleteMovie (movies w) id; clock := clock w |}.

(** The states the store can be in: those a run of mutations reaches from
    a fresh [MemStorage], whatever the clock showed at start-up. *)
Inductive reachable : World -> Prop :=
| reachable_new (t0 : Z) :
    reachable {| movies := newMemStorage; clock := t0 |}
| reachable_step (w w' : World) :
    reachable w -> step w w' -> reachable w'.

(** The stores the routes can produce: those a run of POST, PUT and
    DELETE requests, of any content, leaves behind a fresh [MemStorage]. *)
Inductive served : MemStorage -> Prop :=
| served_new : served newMemStorage
| served_post (storage : MemStorage) (rnd : nat -> byte) (now : Z)
    (body : json) :
    served storage ->
    served (snd (POST_api_movies storage rnd now body))
| served_put (storage : MemStorage) (now : Z) (idParam : string)
    (body : json) :
    served storage ->
    served (snd (PUT_api_movies_id storage now idParam body))
| served_delete (storage : MemStorage) (idParam : string) :
    served storage ->
    served (snd (DELETE_api_movies_id storage idParam)).

(* ================================================================== *)
(** * client/src/pages/movies.tsx *)
(* ================================================================== *)

(** [new Set(ids).has(id)]. *)
Definition has (ids : list string) (id : string) : bool :=
  existsb (String.eqb id) ids.

(** The updater the page hands to [setAllMovies] when a page of data
    arrives: the entries whose id is not shown yet are appended. *)
Definition appendNewMovies (prev data : list Movie.t) : list Movie.t :=
  let existingIds := map Movie.id prev in
  let newMovies :=
    filter (fun m => negb (has existingIds (Movie.id m))) data in
  (prev ++ newMovies)%list.

(* ================================================================== *)
(** * Sample data *)
(* ================================================================== *)

(** An entry with the given id and creation time. *)
Definition sample (id : string) (t : Z) : Movie.t :=
  {| Movie.id := id; Movie.title := "Dune"; Movie.type := "Movie";
     Movie.director := "Denis Villeneuve"; Movie.budget := "$165M";
     Movie.location := "Jordan"; Movie.duration := "155 min";
     Movie.yearTime := "2021"; Movie.createdAt := t; Movie.updatedAt := t |}.

(** A world with one entry, created at time 1 by an all-zero draw. *)
Definition dune : InsertMovie.t :=
  {| InsertMovie.title := "Dune"; InsertMovie.type := TMovie;
     InsertMovie.director := "Denis Villeneuve";
     InsertMovie.budget := "$165M"; InsertMovie.location := "Jordan";
     InsertMovie.duration := "155 min"; InsertMovie.yearTime := "2021" |}.

Definition oneMovie : World :=
  {| movies := snd (createMovie newMemStorage (fun _ => x00) 1 dune);
     clock := 1 |}.

(** [oneMovie] after a second create, at time 2. *)
Definition twoMovies : World :=
  {| movies := snd (createMovie (movies oneMovie) (fun _ => x01) 2 dune);
     clock := 2 |}.

(** The body of a create request, and the store after POST of it on a
    fresh store followed by PUT of a new budget. *)
Definition duneBody : json :=
  JObj [("title", JStr "Dune"); ("type", JStr "Movie");
        ("director", JStr "Denis Villeneuve"); ("budget", JStr "$165M");
        ("location", JStr "Jordan"); ("duration", JStr "155 min");
        ("yearTime", JStr "2021")].

Definition servedTwice : MemStorage :=
  snd (PUT_api_movies_id
         (snd (POST_api_movies newMemStorage (fun _ => x00) 1 duneBody))
         2 "00000000-0000-4000-8000-000000000000"
         (JObj [("budget", JStr "$1M")])).

(* ================================================================== *)
(** * Vocabulary of the statements *)
(* ================================================================== *)

(** [a] was created no earlier than [b]. *)
Definition notOlder (a b : Movie.t) : Prop :=
  Movie.createdAt b <= Movie.createdAt a.

(** The entries of [l] created at time [t], in the order [l] has them. *)
Definition createdAtTime (t : Z) (l : list Movie.t) : list Movie.t :=
  filter (fun m => Movie.createdAt m =? t) l.

(** [ordered] lists the entries of the store newest first, entries of the
    same creation time in the order the store iterates them. *)
Definition newestFirst (this : MemStorage) (ordered : list Movie.t) : Prop :=
  Permutation ordered (JSMap.values this)
  /\ StronglySorted notOlder ordered
  /\ forall t, createdAtTime t ordered = createdAtTime t (JSMap.values this).

(** The value a merged field must have: the supplied one, or the existing
    one when none was supplied. *)
Definition mergedField {A : Type} (existing : A) (supplied : option A)
    (result : A) : Prop :=
  match supplied with
  | Some v => result = v
  | None => result = existing
  end.

(** The fields of [movie] are those submitted in [fields]. *)
Definition sameFields (fields : InsertMovie.t) (movie : Movie.t) : Prop :=
  Movie.title movie = InsertMovie.title fields
  /\ Movie.type movie = literal (InsertMovie.type fields)
  /\ Movie.director movie = InsertMovie.director fields
  /\ Movie.budget movie = InsertMovie.budget fields
  /\ Movie.location movie = InsertMovie.location fields
  /\ Movie.duration movie = InsertMovie.duration fields
  /\ Movie.yearTime movie = InsertMovie.yearTime fields.

(** A field parsed successfully. *)
Definition accepted {A : Type} (r : Zod.parsed A) : Prop :=
  exists a, r = inr a.

(** The length of [s] is between [lo] and [hi]. *)
Definition within (lo hi : nat) (s : string) : Prop :=
  (lo <= String.length s <= hi)%nat.

(** The content of [m] is what [insertMovieSchema] lets through. *)
Definition validEntry (m : Movie.t) : Prop :=
  within 2 255 (Movie.title m)
  /\ (Movie.type m = "Movie" \/ Movie.type m = "TV Show")
  /\ within 1 255 (Movie.director m)
  /\ within 1 100 (Movie.budget m)
  /\ within 1 255 (Movie.location m)
  /\ within 1 50 (Movie.duration m)
  /\ within 1 50 (Movie.yearTime m).

(** Every entry of the store is stored under its own id. *)
Definition keyedById (this : MemStorage) : Prop :=
  Forall (fun kv => Movie.id (snd kv) = fst kv) this.

(** [allMovies] of [getAllMovies]: the sorted entries the page is sliced
    from, that is the whole listing. *)
Definition allMovies (this : MemStorage) : list Movie.t :=
  JSArray.sort byCreatedAt (JSMap.values this).

(** The keys the schemas read. *)
Definition fieldNames : list string :=
  ["title"; "type"; "director"; "budget"; "location"; "duration";
   "yearTime"].

(** The body [o] has the string [s] under [key], of a length between [lo]
    and [hi]. *)
Definition sent (o : list (string * json)) (key : string) (lo hi : nat)
    (s : string) : Prop :=
  Zod.prop o key = Some (JStr s) /\ within lo hi s.

(** The same for a field of an update: the body has the string under the
    key, or the field is [None] and the body does not have the key. *)
Definition sentOrAbsent (o : list (string * json)) (key : string)
    (lo hi : nat) (f : option string) : Prop :=
  match f with
  | Some s => sent o key lo hi s
  | None => Zod.prop o key = None
  end.

(** What the routes keep true of the store: ids are distinct and well
    formed, every entry is under its own id, every entry is valid. *)
Definition wellFormedStore (this : MemStorage) : Prop :=
  NoDup (JSMap.keys this)
  /\ keyedById this
  /\ (forall k, In k (JSMap.keys this) -> Zod.uuid k = true)
  /\ Forall validEntry (JSMap.values this).

(* ================================================================== *)
(** * The map *)
(* ================================================================== *)

Section MapFacts.
Context {V : Type}.
Implicit Types (m : JSMap.t V) (k : string) (v : V).

Lemma get_set_same m k v : JSMap.get (JSMap.set m k v) k = Some v.
Proof.
  induction m as [|[k' v'] r IH]; simpl.
  - now rewrite String.eqb_refl.
  - destruct (String.eqb k' k) eqn:E; simpl; rewrite E; auto.
Qed.

Lemma get_set_other m k k' v :
  k <> k' -> JSMap.get (JSMap.set m k v) k' = JSMap.get m k'.
Proof.
  intros Hne. induction m as [|[k0 v0] r IH]; simpl.
  - destruct (String.eqb k k') eqn:E; auto.
    apply String.eqb_eq in E. contradiction.
  - destruct (String.eqb k0 k) eqn:E; simpl.
    + apply String.eqb_eq in E. subst k0.
      destruct (String.eqb k k') eqn:E'; auto.
      apply String.eqb_eq in E'. contradiction.
    + now rewrite IH.
Qed.

Lemma get_delete_same m k : JSMap.get (JSMap.delete m k) k = None.
Proof.
  induction m as [|[k' v'] r IH]; simpl; auto.
  destruct (String.eqb k' k) eqn:E; simpl; auto.
  now rewrite E.
Qed.

Lemma get_delete_other m k k' :
  k <> k' -> JSMap.get (JSMap.delete m k) k' = JSMap.get m k'.
Proof.
  intros Hne. induction m as [|[k0 v0] r IH]; simpl; auto.
  destruct (String.eqb k0 k) eqn:E; simpl.
  - apply String.eqb_eq in E. subst k0.
    destruct (String.eqb k k') eqn:E'; auto.
    apply String.eqb_eq in E'. contradiction.
  - now rewrite IH.
Qed.

Lemma delete_absent m k : JSMap.get m k = None -> JSMap.delete m k = m.
Proof.
  induction m as [|[k' v'] r IH]; simpl; auto.
  destruct (String.eqb k' k) eqn:E; simpl; try discriminate.
  intros H. now rewrite IH.
Qed.

Lemma get_In_values m k v :
  JSMap.get m k = Some v -> In v (JSMap.values m).
Proof.
  induction m as [|[k' v'] r IH]; simpl; try discriminate.
  destruct (String.eqb k' k); intros H.
  - left. congruence.
  - right. auto.
Qed.

Lemma In_values_set m k v x :
  In x (JSMap.values (JSMap.set m k v)) ->
  x = v \/ In x (JSMap.values m).
Proof.
  induction m as [|[k' v'] r IH]; simpl.
  - intros [H|[]]. now left.
  - destruct (String.eqb k' k); simpl.
    + intros [H|H]; auto.
    + intros [H|H]; auto. destruct (IH H); auto.
Qed.

Lemma In_values_delete m k x :
  In x (JSMap.values (JSMap.delete m k)) -> In x (JSMap.values m).
Proof.
  unfold JSMap.values, JSMap.delete. rewrite !in_map_iff.
  intros [kv [E H]]. apply filter_In in H. exists kv. tauto.
Qed.

(** [set] on a key that is present changes no key. *)
Lemma keys_set_present m k v v0 :
  JSMap.get m k = Some v0 -> JSMap.keys (JSMap.set m k v) = JSMap.keys m.
Proof.
  induction m as [|[k' v'] r IH]; simpl; try discriminate.
  destruct (String.eqb k' k) eqn:E; simpl; auto.
  intros H. now rewrite IH.
Qed.

Lemma In_keys_set m k v x :
  In x (JSMap.keys (JSMap.set m k v)) -> x = k \/ In x (JSMap.keys m).
Proof.
  induction m as [|[k' v'] r IH]; simpl.
  - intros [H|[]]. now left.
  - destruct (String.eqb k' k); simpl.
    + intros [H|H]; auto.
    + intros [H|H]; auto. destruct (IH H); auto.
Qed.

Lemma In_keys_delete m k x :
  In x (JSMap.keys (JSMap.delete m k)) -> In x (JSMap.keys m).
Proof.
  unfold JSMap.keys, JSMap.delete. rewrite !in_map_iff.
  intros [kv [E H]]. apply filter_In in H. exists kv. tauto.
Qed.

Lemma get_In_keys m k v : JSMap.get m k = Some v -> In k (JSMap.keys m).
Proof.
  induction m as [|[k' v'] r IH]; simpl; try discriminate.
  destruct (String.eqb k' k) eqn:E; intros H.
  - left. now apply String.eqb_eq.
  - right. auto.
Qed.
End MapFacts.

(* ================================================================== *)
(** * The store: create, get, update *)
(* ================================================================== *)

(** C8. Round trip: after [createMovie], [getMovie] at the returned id
    yields the returned entry, whose seven content fields are the ones
    submitted and whose [id], [createdAt] and [updatedAt] are the ones the
    store assigned (the generated UUID and the time of the call). *)
Theorem create_then_get (this : MemStorage) (rnd : nat -> byte) (now : Z)
    (insertMovie : InsertMovie.t) :
  let (movie, this') := createMovie this rnd now insertMovie in
  getMovie this' (Movie.id movie) = Some movie
  /\ sameFields insertMovie movie
  /\ Movie.id movie = randomUUID rnd
  /\ Movie.createdAt movie = now
  /\ Movie.updatedAt movie = now.
Proof.
  unfold createMovie, getMovie, sameFields; simpl.
  rewrite get_set_same. repeat split.
Qed.

(** C4. [updateMovie] on an id that is present returns and stores an
    entry in which every supplied field has the supplied value, every
    field that was not supplied, and [id] and [createdAt], are those of
    the existing entry, and [updatedAt] is the current time; no other id
    is touched. On an id that is absent it throws "Movie not found". *)
Theorem update_merges_supplied_fields (this : MemStorage) (id : string)
    (updateData : PartialInsertMovie.t) (now : Z) :
  match getMovie this id with
  | None => updateMovie this id updateData now = inl "Movie not found"
  | Some existing =>
      exists updated this',
        updateMovie this id updateData now = inr (updated, this')
        /\ getMovie this' id = Some updated
        /\ (forall other, other <> id ->
              getMovie this' other = getMovie this other)
        /\ mergedField (Movie.title existing)
             (PartialInsertMovie.title updateData) (Movie.title updated)
        /\ mergedField (Movie.type existing)
             (option_map literal (PartialInsertMovie.type updateData))
             (Movie.type updated)
        /\ mergedField (Movie.director existing)
             (PartialInsertMovie.director updateData) (Movie.director updated)
        /\ mergedField (Movie.budget existing)
             (PartialInsertMovie.budget updateData) (Movie.budget updated)
        /\ mergedField (Movie.location existing)
             (PartialInsertMovie.location updateData) (Movie.location updated)
        /\ mergedField (Movie.duration existing)
             (PartialInsertMovie.duration updateData) (Movie.duration updated)
        /\ mergedField (Movie.yearTime existing)
             (PartialInsertMovie.yearTime updateData) (Movie.yearTime updated)
        /\ Movie.id updated = Movie.id existing
        /\ Movie.createdAt updated = Movie.createdAt existing
        /\ Movie.updatedAt updated = now
  end.
Proof.
  unfold updateMovie, getMovie.
  destruct (JSMap.get this id) as [existing|] eqn:G; [|reflexivity].
  eexists. eexists. split; [reflexivity|].
  split; [apply get_set_same|].
  split; [intros other Hne; apply get_set_other; congruence|].
  destruct updateData as [t ty d b l du y]; simpl.
  repeat split;
    match goal with
    | |- mergedField _ ?s _ => destruct s; reflexivity
    | |- mergedField _ (option_map _ ?s) _ => destruct s; reflexivity
    | _ => idtac
    end.
Qed.

(* ================================================================== *)
(** * Sorting and slicing *)
(* ================================================================== *)

Section SortFacts.
Implicit Types (x : Movie.t) (l : list Movie.t).

Lemma insert_perm x l :
  Permutation (JSArray.insert byCreatedAt x l) (x :: l).
Proof.
  induction l as [|y r IH]; simpl; auto.
  destruct (byCreatedAt x y <=? 0); auto.
  rewrite IH. apply perm_swap.
Qed.

Lemma sort_perm l : Permutation (JSArray.sort byCreatedAt l) l.
Proof.
  induction l as [|x r IH]; simpl; auto.
  rewrite insert_perm. now constructor.
Qed.

Lemma insert_sorted x l :
  StronglySorted notOlder l ->
  StronglySorted notOlder (JSArray.insert byCreatedAt x l).
Proof.
  induction 1 as [|y r Hr IH Hy]; simpl.
  - repeat constructor.
  - unfold byCreatedAt at 1.
    destruct (Z.leb_spec (Movie.createdAt y - Movie.createdAt x) 0)
      as [Hle|Hgt].
    + constructor; [now constructor|].
      constructor; [unfold notOlder; lia|].
      rewrite Forall_forall in *. intros z Hz.
      specialize (Hy z Hz). unfold notOlder in *. lia.
    + constructor; auto.
      rewrite Forall_forall in *. intros z Hz.
      apply (Permutation_in _ (insert_perm x r)) in Hz.
      destruct Hz as [<-|Hz]; [unfold notOlder; lia|auto].
Qed.

Lemma sort_sorted l : StronglySorted notOlder (JSArray.sort byCreatedAt l).
Proof.
  induction l as [|x r IH]; simpl; [constructor|].
  now apply insert_sorted.
Qed.

(** Inserting [x] puts it in front of every entry of its own creation
    time. *)
Lemma insert_createdAtTime t x l :
  createdAtTime t (JSArray.insert byCreatedAt x l)
  = createdAtTime t (x :: l).
Proof.
  induction l as [|y r IH]; simpl; auto.
  unfold byCreatedAt at 1.
  destruct (Z.leb_spec (Movie.createdAt y - Movie.createdAt x) 0)
    as [Hle|Hgt]; [reflexivity|].
  simpl. simpl in IH. rewrite IH.
  destruct (Z.eqb_spec (Movie.createdAt y) t) as [Ey|Ny]; [|reflexivity].
  destruct (Z.eqb_spec (Movie.createdAt x) t) as [Ex|Nx]; [lia|reflexivity].
Qed.

Lemma sort_createdAtTime t l :
  createdAtTime t (JSArray.sort byCreatedAt l) = createdAtTime t l.
Proof.
  induction l as [|x r IH]; simpl; auto.
  rewrite insert_createdAtTime. simpl. now rewrite IH.
Qed.

Lemma sort_newestFirst (this : MemStorage) :
  newestFirst this (JSArray.sort byCreatedAt (JSMap.values this)).
Proof.
  split; [apply sort_perm|].
  split; [apply sort_sorted|].
  intros t. apply sort_createdAtTime.
Qed.
End SortFacts.

Section SliceFacts.
Context {A : Type}.
Implicit Types (l : list A).

Lemma firstn_capped n l :
  firstn n l = firstn (Nat.min n (List.length l)) l.
Proof.
  destruct (Nat.le_ge_cases n (List.length l)) as [H|H].
  - now rewrite Nat.min_l.
  - rewrite Nat.min_r by assumption.
    now rewrite firstn_all, firstn_all2.
Qed.

(** [slice] between two non-negative bounds in order. *)
Lemma slice_window l (start end_ : Z) :
  0 <= start <= end_ ->
  JSArray.slice l start end_
  = firstn (Z.to_nat (end_ - start)) (skipn (Z.to_nat start) l).
Proof.
  intros H. unfold JSArray.slice.
  destruct (Z.ltb_spec start 0); [lia|].
  destruct (Z.ltb_spec end_ 0); [lia|].
  destruct (Z.le_gt_cases start (Z.of_nat (List.length l))) as [Hs|Hs].
  - rewrite (Z.min_l start) by lia.
    rewrite (firstn_capped (Z.to_nat (end_ - start))).
    rewrite length_skipn. f_equal. lia.
  - rewrite (Z.min_r start) by lia. rewrite Nat2Z.id.
    rewrite skipn_all. rewrite skipn_all2 by lia.
    now rewrite !firstn_nil.
Qed.

Lemma firstn_plus n k l :
  firstn (n + k) l = (firstn n l ++ firstn k (skipn n l))%list.
Proof.
  revert l. induction n as [|n IH]; intros l; simpl; auto.
  destruct l as [|a l]; simpl.
  - now rewrite firstn_nil.
  - now rewrite IH.
Qed.

(** Consecutive windows of width [w], from window number [a] on, add up
    to one window of width [k * w]. *)
Lemma windows_concat (w : nat) l (k a : nat) :
  flat_map (fun p => firstn w (skipn (p * w) l)) (seq a k)
  = firstn (k * w) (skipn (a * w) l).
Proof.
  revert a. induction k as [|k IH]; intros a; simpl; auto.
  rewrite IH. rewrite firstn_plus. f_equal.
  now rewrite skipn_skipn.
Qed.
End SliceFacts.

(** [Math.ceil(a / b)] for a positive divisor is the least number of
    [b]-wide pages that hold [a] items. *)
Lemma Math_ceil_div_spec (a b : Z) :
  0 < b ->
  (Math_ceil_div a b - 1) * b < a <= Math_ceil_div a b * b.
Proof.
  intros Hb. unfold Math_ceil_div, Qceiling.
  destruct b as [|p|p]; try lia.
  unfold Qdiv, Qinv, Qmult, Qopp, Qfloor, inject_Z; simpl Qnum; simpl Qden.
  rewrite Z.mul_1_r. change (1 * p)%positive with p.
  pose proof (Z.div_mod (- a) (Z.pos p) ltac:(lia)) as Hdm.
  pose proof (Z.mod_pos_bound (- a) (Z.pos p) ltac:(lia)) as Hmod.
  nia.
Qed.

(** [getAllMovies] is a window of the sorted entries. *)
Lemma getAllMovies_window (this : MemStorage) (page limit : Z) :
  1 <= page -> 1 <= limit ->
  getAllMovies this page limit
  = firstn (Z.to_nat limit)
      (skipn (Z.to_nat ((page - 1) * limit))
         (JSArray.sort byCreatedAt (JSMap.values this))).
Proof.
  intros Hp Hl. unfold getAllMovies.
  rewrite slice_window by nia. do 2 f_equal. lia.
Qed.

Lemma sort_length (l : list Movie.t) :
  List.length (JSArray.sort byCreatedAt l) = List.length l.
Proof. apply Permutation_length, sort_perm. Qed.

Lemma getAllMovies_past_end (this : MemStorage) (page limit : Z) :
  1 <= page -> 1 <= limit ->
  getMoviesCount this <= (page - 1) * limit ->
  getAllMovies this page limit = [].
Proof.
  intros Hp Hl Hc. rewrite getAllMovies_window by assumption.
  rewrite skipn_all2; [apply firstn_nil|].
  rewrite sort_length. unfold getMoviesCount, JSMap.size, JSMap.values in *.
  rewrite length_map. lia.
Qed.

(** C1. For positive [page] and [limit], [getAllMovies] returns the
    entries of the store ordered by [createdAt] descending, entries of
    equal [createdAt] in the store's insertion order, starting at offset
    [(page - 1) * limit] and holding at most [limit] of them; it is empty
    when that offset is at or beyond the number of entries. *)
Theorem getAllMovies_page (this : MemStorage) (page limit : Z) :
  1 <= page -> 1 <= limit ->
  exists ordered,
    newestFirst this ordered
    /\ getAllMovies this page limit
       = firstn (Z.to_nat limit)
           (skipn (Z.to_nat ((page - 1) * limit)) ordered)
    /\ Z.of_nat (List.length (getAllMovies this page limit)) <= limit
    /\ (getMoviesCount this <= (page - 1) * limit ->
        getAllMovies this page limit = []).
Proof.
  intros Hp Hl.
  exists (JSArray.sort byCreatedAt (JSMap.values this)).
  split; [apply sort_newestFirst|].
  split; [now apply getAllMovies_window|].
  split; [|now apply getAllMovies_past_end].
  rewrite getAllMovies_window by assumption.
  rewrite length_firstn. lia.
Qed.

(** Three entries, the first and the last created at the same time. *)
Lemma getAllMovies_page_witness :
  let this :=
    [("a", sample "a" 5); ("b", sample "b" 9); ("c", sample "c" 5)] in
  getAllMovies this 2 2 = [sample "c" 5]
  /\ exists ordered,
       newestFirst this ordered
       /\ getAllMovies this 2 2
          = firstn (Z.to_nat 2) (skipn (Z.to_nat ((2 - 1) * 2)) ordered)
       /\ Z.of_nat (List.length (getAllMovies this 2 2)) <= 2
       /\ (getMoviesCount this <= (2 - 1) * 2 ->
           getAllMovies this 2 2 = []).
Proof.
  intros this. split; [reflexivity|].
  apply (getAllMovies_page this 2 2); lia.
Defined.

(** Walking pages [1 .. k] yields the first [k * limit] sorted entries. *)
Lemma walk_prefix (this : MemStorage) (limit : Z) (k : nat) :
  1 <= limit ->
  flat_map (fun p => getAllMovies this (Z.of_nat p) limit) (seq 1 k)
  = firstn (k * Z.to_nat limit)
      (JSArray.sort byCreatedAt (JSMap.values this)).
Proof.
  intros Hl. rewrite <- seq_shift, flat_map_concat_map, map_map.
  rewrite (map_ext _
    (fun p => firstn (Z.to_nat limit)
                (skipn (p * Z.to_nat limit)
                   (JSArray.sort byCreatedAt (JSMap.values this))))).
  - rewrite <- flat_map_concat_map. now rewrite windows_concat.
  - intros p. rewrite getAllMovies_window by lia.
    do 2 f_equal. rewrite Nat2Z.inj_succ.
    replace (Z.succ (Z.of_nat p) - 1) with (Z.of_nat p) by lia.
    rewrite Z2Nat.inj_mul by lia. now rewrite Nat2Z.id.
Qed.

(** C3. With no mutation in between, the pages [1 .. ceil(N / L)] of
    size [L >= 1], one after the other, are the entries of the store, each
    exactly once, in [createdAt]-descending order. *)
Theorem pagination_complete (this : MemStorage) (L : Z) :
  1 <= L ->
  let N := getMoviesCount this in
  let lastPage := Z.to_nat (Math_ceil_div N L) in
  let walk :=
    flat_map (fun p => getAllMovies this (Z.of_nat p) L) (seq 1 lastPage) in
  Permutation walk (JSMap.values this)
  /\ StronglySorted notOlder walk
  /\ Z.of_nat (List.length walk) = N.
Proof.
  intros HL N lastPage walk.
  assert (E : walk = JSArray.sort byCreatedAt (JSMap.values this)).
  { unfold walk. rewrite walk_prefix by assumption.
    apply firstn_all2. rewrite sort_length.
    pose proof (Math_ceil_div_spec N L ltac:(lia)) as Hc.
    assert (HN : N = Z.of_nat (List.length (JSMap.values this))).
    { unfold N, getMoviesCount, JSMap.size, JSMap.values.
      now rewrite length_map. }
    assert (0 <= Math_ceil_div N L) by nia.
    apply Nat2Z.inj_le. rewrite Nat2Z.inj_mul.
    unfold lastPage. rewrite !Z2Nat.id by lia. lia. }
  rewrite E. pose proof (sort_newestFirst this) as H.
  split; [apply H|]. split; [apply H|].
  rewrite sort_length. unfold N, getMoviesCount, JSMap.size, JSMap.values.
  now rewrite length_map.
Qed.

(** Five entries walked in pages of two. *)
Lemma pagination_complete_witness :
  let this :=
    [("a", sample "a" 5); ("b", sample "b" 9); ("c", sample "c" 5);
     ("d", sample "d" 1); ("e", sample "e" 7)] in
  let walk :=
    flat_map (fun p => getAllMovies this (Z.of_nat p) 2)
      (seq 1 (Z.to_nat (Math_ceil_div (getMoviesCount this) 2))) in
  walk = [sample "b" 9; sample "e" 7; sample "a" 5; sample "c" 5;
          sample "d" 1]
  /\ Permutation walk (JSMap.values this)
  /\ StronglySorted notOlder walk
  /\ Z.of_nat (List.length walk) = getMoviesCount this.
Proof.
  intros this walk. split; [reflexivity|].
  apply (pagination_complete this 2). lia.
Defined.

(* ================================================================== *)
(** * The routes *)
(* ================================================================== *)

(** C2. A list request with [page >= 1] and [1 <= limit <= 100] is
    answered 200 with the page of the store as data and the pagination
    object [{page, limit, total, pages, hasNext, hasPrev}] where [total]
    is the store's count, [pages] is [ceil(total / limit)], [hasNext] is
    [page < pages] and [hasPrev] is [page > 1]; a page beyond the last one
    has empty data and is still a 200; on an empty store page 1 with
    limit 10 is a 200 with no data, total 0 and [hasNext] false. *)
Theorem list_pagination (storage : MemStorage) (page limit : Z) :
  1 <= page -> 1 <= limit <= 100 ->
  let total := getMoviesCount storage in
  let res := GET_api_movies storage (Zod.Integer page) (Zod.Integer limit) in
  let empty := GET_api_movies newMemStorage (Zod.Integer 1) (Zod.Integer 10) in
  exists pages,
    (pages - 1) * limit < total <= pages * limit
    /\ Response.code res = 200
    /\ Response.status res = true
    /\ Response.data res
       = Response.Many (getAllMovies storage page limit)
    /\ Response.pagination res
       = Some {| Pagination.page := page;
                 Pagination.limit := limit;
                 Pagination.total := total;
                 Pagination.pages := pages;
                 Pagination.hasNext := page <? pages;
                 Pagination.hasPrev := 1 <? page |}
    /\ (pages < page -> Response.data res = Response.Many [])
    /\ Response.code empty = 200
    /\ Response.data empty = Response.Many []
    /\ option_map Pagination.total (Response.pagination empty) = Some 0
    /\ option_map Pagination.hasNext (Response.pagination empty)
       = Some false.
Proof.
  intros Hp Hl total res empty.
  exists (Math_ceil_div total limit).
  pose proof (Math_ceil_div_spec total limit ltac:(lia)) as Hc.
  assert (Er : res
    = success 200 "Movies retrieved successfully"
        (Response.Many (getAllMovies storage page limit))
        (Some (calculatePagination page limit total))).
  { unfold res, GET_api_movies, paginationSchema, Zod.int_min_max_default.
    destruct (Z.ltb_spec page 1); [lia|].
    destruct (Z.ltb_spec limit 1); [lia|].
    destruct (Z.ltb_spec 100 limit); [lia|]. reflexivity. }
  split; [exact Hc|]. rewrite Er. simpl.
  repeat split; try reflexivity.
  intros Hbeyond. f_equal.
  apply getAllMovies_past_end; try lia. fold total. nia.
Qed.

(** Page 3 of a store of two entries, two per page. *)
Lemma list_pagination_witness :
  let storage := [("a", sample "a" 5); ("b", sample "b" 9)] in
  let res := GET_api_movies storage (Zod.Integer 3) (Zod.Integer 2) in
  let empty := GET_api_movies newMemStorage (Zod.Integer 1) (Zod.Integer 10) in
  (1 <= 3 /\ 1 <= 2 <= 100)
  /\ exists pages,
       (pages - 1) * 2 < getMoviesCount storage <= pages * 2
       /\ Response.code res = 200
       /\ Response.status res = true
       /\ Response.data res = Response.Many (getAllMovies storage 3 2)
       /\ Response.pagination res
          = Some {| Pagination.page := 3;
                    Pagination.limit := 2;
                    Pagination.total := getMoviesCount storage;
                    Pagination.pages := pages;
                    Pagination.hasNext := 3 <? pages;
                    Pagination.hasPrev := 1 <? 3 |}
       /\ (pages < 3 -> Response.data res = Response.Many [])
       /\ Response.code empty = 200
       /\ Response.data empty = Response.Many []
       /\ option_map Pagination.total (Response.pagination empty) = Some 0
       /\ option_map Pagination.hasNext (Response.pagination empty)
          = Some false.
Proof.
  intros storage res empty. split; [lia|].
  apply (list_pagination storage 3 2); lia.
Defined.

(* ================================================================== *)
(** * Generated ids *)
(* ================================================================== *)

Lemma hexDigit_is_hex (n : N) :
  (n < 16)%N -> Zod.isHexDigit (hexDigit n) = true.
Proof.
  intros H. unfold hexDigit.
  assert (Hk : (N.to_nat n < 16)%nat) by lia.
  revert Hk. generalize (N.to_nat n) as k. intros k Hk.
  do 16 (destruct k as [|k]; [reflexivity|]). lia.
Qed.

Lemma uuidByte_bounded (rnd : nat -> byte) (i : nat) :
  (uuidByte rnd i < 256)%N.
Proof.
  assert (Hb : forall b : byte, (Byte.to_N b < 256)%N).
  { intros b. pose proof (Byte.to_N_bounded b). lia. }
  assert (H6 : forall b : byte,
             (N.lor (N.land (Byte.to_N b) 15) 64 < 256)%N).
  { intros b. destruct b; reflexivity. }
  assert (H8 : forall b : byte,
             (N.lor (N.land (Byte.to_N b) 63) 128 < 256)%N).
  { intros b. destruct b; reflexivity. }
  unfold uuidByte.
  do 9 (destruct i as [|i]; auto).
Qed.

Lemma hi_nibble_is_hex (rnd : nat -> byte) (i : nat) :
  Zod.isHexDigit (hexDigit (uuidByte rnd i / 16)) = true.
Proof.
  apply hexDigit_is_hex. pose proof (uuidByte_bounded rnd i).
  apply N.Div0.div_lt_upper_bound. lia.
Qed.

Lemma lo_nibble_is_hex (rnd : nat -> byte) (i : nat) :
  Zod.isHexDigit (hexDigit (uuidByte rnd i mod 16)) = true.
Proof. apply hexDigit_is_hex. apply N.mod_lt. discriminate. Qed.

(** Every string [randomUUID] can return matches the pattern of
    [z.string().uuid()]. *)
Lemma randomUUID_is_uuid (rnd : nat -> byte) :
  Zod.uuid (randomUUID rnd) = true.
Proof.
  unfold randomUUID, serializeUUID, kHexByte, Zod.uuid.
  cbn -[Zod.isHexDigit hexDigit uuidByte N.div N.modulo].
  repeat (rewrite ?hi_nibble_is_hex, ?lo_nibble_is_hex;
          cbn -[Zod.isHexDigit hexDigit uuidByte N.div N.modulo]).
  reflexivity.
Qed.

Lemma idParamSchema_accepts (id : string) :
  Zod.uuid id = true -> idParamSchema id = inr id.
Proof. intros H. unfold idParamSchema. now rewrite H. Qed.

(** C10. The id of an entry that [createMovie] returns passes the id
    validation of the routes: GET and DELETE on it never answer 400, PUT
    on it never answers with the malformed-id rejection, and right after
    the create GET answers 200 with the entry. *)
Theorem created_id_is_well_formed (storage : MemStorage)
    (rnd : nat -> byte) (now : Z) (insertMovie : InsertMovie.t) :
  let (movie, storage') := createMovie storage rnd now insertMovie in
  let id := Movie.id movie in
  Zod.uuid id = true
  /\ idParamSchema id = inr id
  /\ (forall s, Response.code (GET_api_movies_id s id) <> 400)
  /\ (forall s, Response.code (fst (DELETE_api_movies_id s id)) <> 400)
  /\ (forall s now' body,
        Response.message (fst (PUT_api_movies_id s now' id body))
        <> "Invalid movie ID format")
  /\ Response.code (GET_api_movies_id storage' id) = 200
  /\ Response.data (GET_api_movies_id storage' id) = Response.One movie.
Proof.
  unfold createMovie. cbv zeta. cbn [Movie.id].
  pose proof (randomUUID_is_uuid rnd) as Hu.
  pose proof (idParamSchema_accepts _ Hu) as Hs.
  split; [exact Hu|]. split; [exact Hs|].
  split; [|split; [|split; [|split]]].
  - intros s. unfold GET_api_movies_id. rewrite Hs.
    destruct (getMovie s (randomUUID rnd)); discriminate.
  - intros s. unfold DELETE_api_movies_id. rewrite Hs.
    destruct (getMovie s (randomUUID rnd)); discriminate.
  - intros s now' body. unfold PUT_api_movies_id. rewrite Hs.
    destruct (updateSchema body) as [e|data]; [discriminate|].
    destruct (getMovie s (randomUUID rnd)); [|discriminate].
    destruct (updateMovie s (randomUUID rnd) data now') as [msg|[u s']];
      discriminate.
  - unfold GET_api_movies_id, getMovie. rewrite Hs, get_set_same.
    reflexivity.
  - unfold GET_api_movies_id, getMovie. rewrite Hs, get_set_same.
    reflexivity.
Qed.

(* ================================================================== *)
(** * Reachable stores *)
(* ================================================================== *)

(** Every key of a reachable store was generated by [randomUUID]. *)
Lemma reachable_keys (w : World) :
  reachable w ->
  forall k, In k (JSMap.keys (movies w)) -> exists rnd, k = randomUUID rnd.
Proof.
  induction 1 as [t0|w w' Hw IH Hstep]; simpl.
  - intros k [].
  - destruct Hstep as [w rnd now im Hc|w id upd now u s' Hc Hu|w id];
      simpl; intros k Hk.
    + apply In_keys_set in Hk. destruct Hk as [->|Hk]; eauto.
    + unfold updateMovie in Hu.
      destruct (JSMap.get (movies w) id) as [existing|] eqn:G;
        [|discriminate].
      injection Hu as _ <-.
      rewrite (keys_set_present _ _ _ _ G) in Hk. auto.
    + apply In_keys_delete in Hk. auto.
Qed.

Lemma reachable_id_well_formed (w : World) (id : string) (m : Movie.t) :
  reachable w -> getMovie (movies w) id = Some m -> Zod.uuid id = true.
Proof.
  intros Hw G. apply get_In_keys in G.
  destruct (reachable_keys w Hw id G) as [rnd ->].
  apply randomUUID_is_uuid.
Qed.

(** In a reachable store no entry was updated before it was created, and
    none after the last clock reading. *)
Lemma reachable_timestamps (w : World) :
  reachable w ->
  forall m, In m (JSMap.values (movies w)) ->
    Movie.createdAt m <= Movie.updatedAt m /\ Movie.updatedAt m <= clock w.
Proof.
  induction 1 as [t0|w w' Hw IH Hstep]; simpl.
  - intros m [].
  - destruct Hstep as [w rnd now im Hc|w id upd now u s' Hc Hu|w id];
      simpl; intros m Hm.
    + apply In_values_set in Hm. destruct Hm as [->|Hm]; simpl; [lia|].
      specialize (IH m Hm). lia.
    + unfold updateMovie in Hu.
      destruct (JSMap.get (movies w) id) as [existing|] eqn:G;
        [|discriminate].
      injection Hu as <- <-.
      apply In_values_set in Hm. destruct Hm as [->|Hm]; simpl.
      * specialize (IH existing (get_In_values _ _ _ G)). lia.
      * specialize (IH m Hm). lia.
    + apply In_values_delete in Hm. auto.
Qed.

Lemma oneMovie_reachable : reachable oneMovie.
Proof.
  apply (reachable_step {| movies := newMemStorage; clock := 0 |}).
  - apply reachable_new.
  - apply (step_create {| movies := newMemStorage; clock := 0 |}).
    simpl. lia.
Defined.

(** C7. In every reachable store every entry has
    [createdAt <= updatedAt]: [createMovie] sets the two to the same
    time, and an [updateMovie] keeps [createdAt] and sets [updatedAt] to
    the current time, which is not before the previous [updatedAt]. *)
Theorem createdAt_le_updatedAt (w : World) (m : Movie.t) :
  reachable w ->
  In m (JSMap.values (movies w)) ->
  Movie.createdAt m <= Movie.updatedAt m
  /\ (forall rnd now insertMovie,
        let created := fst (createMovie (movies w) rnd now insertMovie) in
        Movie.createdAt created = Movie.updatedAt created)
  /\ (forall id updateData now updated movies',
        clock w <= now ->
        getMovie (movies w) id = Some m ->
        updateMovie (movies w) id updateData now = inr (updated, movies') ->
        Movie.updatedAt m <= Movie.updatedAt updated
        /\ Movie.createdAt updated = Movie.createdAt m
        /\ Movie.createdAt updated <= Movie.updatedAt updated).
Proof.
  intros Hw Hm.
  destruct (reachable_timestamps w Hw m Hm) as [Hcu Huc].
  split; [exact Hcu|]. split; [reflexivity|].
  intros id upd now u s' Hc G Hu.
  unfold updateMovie in Hu. unfold getMovie in G. rewrite G in Hu.
  injection Hu as <- _. simpl. lia.
Qed.

Lemma createdAt_le_updatedAt_witness :
  let m := fst (createMovie newMemStorage (fun _ => x00) 1 dune) in
  Movie.createdAt m <= Movie.updatedAt m
  /\ (forall rnd now insertMovie,
        let created :=
          fst (createMovie (movies oneMovie) rnd now insertMovie) in
        Movie.createdAt created = Movie.updatedAt created)
  /\ (forall id updateData now updated movies',
        clock oneMovie <= now ->
        getMovie (movies oneMovie) id = Some m ->
        updateMovie (movies oneMovie) id updateData now
        = inr (updated, movies') ->
        Movie.updatedAt m <= Movie.updatedAt updated
        /\ Movie.createdAt updated = Movie.createdAt m
        /\ Movie.createdAt updated <= Movie.updatedAt updated).
Proof.
  intros m.
  apply (createdAt_le_updatedAt oneMovie m oneMovie_reachable).
  simpl. left. reflexivity.
Defined.

(** C5. DELETE on the id of an entry of the store answers 200, and the
    same DELETE again answers 404 and changes nothing; [deleteMovie] on
    an id that is absent leaves the store as it is. *)
Theorem delete_twice (w : World) (id absent : string) (movie : Movie.t) :
  reachable w ->
  getMovie (movies w) id = Some movie ->
  getMovie (movies w) absent = None ->
  let (first, storage1) := DELETE_api_movies_id (movies w) id in
  let (second, storage2) := DELETE_api_movies_id storage1 id in
  Response.code first = 200
  /\ Response.data first = Response.Null
  /\ getMovie storage1 id = None
  /\ Response.code second = 404
  /\ storage2 = storage1
  /\ deleteMovie (movies w) absent = movies w.
Proof.
  intros Hw G Ha.
  pose proof (reachable_id_well_formed w id movie Hw G) as Hu.
  unfold DELETE_api_movies_id.
  rewrite (idParamSchema_accepts _ Hu), G.
  unfold getMovie, deleteMovie in *. rewrite get_delete_same.
  repeat split; auto using get_delete_same.
  now apply delete_absent.
Qed.

Lemma delete_twice_witness :
  let id := "00000000-0000-4000-8000-000000000000" in
  let (first, storage1) := DELETE_api_movies_id (movies oneMovie) id in
  let (second, storage2) := DELETE_api_movies_id storage1 id in
  Response.code first = 200
  /\ Response.data first = Response.Null
  /\ getMovie storage1 id = None
  /\ Response.code second = 404
  /\ storage2 = storage1
  /\ deleteMovie (movies oneMovie) "not-there" = movies oneMovie.
Proof.
  intros id.
  apply (delete_twice oneMovie id "not-there"
           (fst (createMovie newMemStorage (fun _ => x00) 1 dune))
           oneMovie_reachable); reflexivity.
Defined.

(* ================================================================== *)
(** * Rejected updates *)
(* ================================================================== *)

(** C9. What PUT answers to the two rejected requests, for well-formed
    ids. An empty body is rejected by the refinement, whose message goes
    to the form errors; the handler sends only the field errors, so the
    400 reads "Validation failed" with an empty [errors] object and the
    text "At least one field must be provided for update" is not in the
    response. A valid body for an id that is not in the store is answered
    404. Neither request changes the store. *)
Theorem put_rejections (storage : MemStorage) (now : Z)
    (idParam unknownId : string) (body : json)
    (data : PartialInsertMovie.t) :
  Zod.uuid idParam = true ->
  Zod.uuid unknownId = true ->
  getMovie storage unknownId = None ->
  updateSchema body = inr data ->
  updateSchema (JObj [])
  = inl {| Zod.formErrors :=
             ["At least one field must be provided for update"];
           Zod.fieldErrors := [] |}
  /\ PUT_api_movies_id storage now idParam (JObj [])
     = ({| Response.code := 400;
           Response.status := false;
           Response.message := "Validation failed";
           Response.data := Response.NoData;
           Response.errors := Some [];
           Response.pagination := None;
           Response.error := None |}, storage)
  /\ PUT_api_movies_id storage now unknownId body
     = ({| Response.code := 404;
           Response.status := false;
           Response.message := "Movie not found";
           Response.data := Response.NoData;
           Response.errors := None;
           Response.pagination := None;
           Response.error := None |}, storage).
Proof.
  intros Hid Hunknown Habsent Hbody.
  split; [reflexivity|]. split.
  - unfold PUT_api_movies_id.
    now rewrite (idParamSchema_accepts _ Hid).
  - unfold PUT_api_movies_id.
    now rewrite (idParamSchema_accepts _ Hunknown), Hbody, Habsent.
Qed.

(** The empty body sent to the entry of [oneMovie], and a budget sent to
    an id that is not there. *)
Lemma put_rejections_witness :
  let storage := movies oneMovie in
  let existingId := "00000000-0000-4000-8000-000000000000" in
  let unknownId := "123e4567-e89b-42d3-a456-426614174000" in
  getMovie storage existingId
  = Some (fst (createMovie newMemStorage (fun _ => x00) 1 dune))
  /\ updateSchema (JObj [])
     = inl {| Zod.formErrors :=
                ["At least one field must be provided for update"];
              Zod.fieldErrors := [] |}
  /\ PUT_api_movies_id storage 2 existingId (JObj [])
     = ({| Response.code := 400;
           Response.status := false;
           Response.message := "Validation failed";
           Response.data := Response.NoData;
           Response.errors := Some [];
           Response.pagination := None;
           Response.error := None |}, storage)
  /\ PUT_api_movies_id storage 2 unknownId (JObj [("budget", JStr "$1M")])
     = ({| Response.code := 404;
           Response.status := false;
           Response.message := "Movie not found";
           Response.data := Response.NoData;
           Response.errors := None;
           Response.pagination := None;
           Response.error := None |}, storage).
Proof.
  intros storage existingId unknownId. split; [reflexivity|].
  apply (put_rejections storage 2 existingId unknownId
           (JObj [("budget", JStr "$1M")])
           {| PartialInsertMovie.title := None;
              PartialInsertMovie.type := None;
              PartialInsertMovie.director := None;
              PartialInsertMovie.budget := Some "$1M";
              PartialInsertMovie.location := None;
              PartialInsertMovie.duration := None;
              PartialInsertMovie.yearTime := None |}); reflexivity.
Defined.

(* ================================================================== *)
(** * The type field *)
(* ================================================================== *)

Lemma typeSchema_accepted (v : option json) :
  accepted (typeSchema v)
  <-> v = Some (JStr "Movie") \/ v = Some (JStr "TV Show").
Proof.
  unfold accepted, typeSchema. split.
  - destruct v as [[| | |s| |]|]; try (intros [a H]; discriminate).
    destruct (String.eqb_spec s "Movie") as [->|N1]; [now left|].
    destruct (String.eqb_spec s "TV Show") as [->|N2]; [now right|].
    intros [a H]; discriminate.
  - intros [->| ->]; simpl; eauto.
Qed.

Lemma optional_typeSchema_accepted (v : option json) :
  accepted (Zod.optional typeSchema v)
  <-> v = None \/ v = Some (JStr "Movie") \/ v = Some (JStr "TV Show").
Proof.
  split.
  - destruct v as [j|]; [|now left]. intros [a H]. right.
    apply typeSchema_accepted. unfold Zod.optional in H.
    destruct (typeSchema (Some j)) as [e|t] eqn:E; [discriminate|].
    now exists t.
  - intros [->|[->| ->]]; simpl; unfold accepted; eauto.
Qed.

(** C6. The type field accepts exactly the two members of its enum,
    [Movie] and [TVShow], which the schema writes as the strings "Movie"
    and "TV Show": on create the field is accepted if and only if it is
    one of them, on update if and only if it is absent or one of them,
    and a body whose type field is not accepted is answered 400 and
    changes nothing. *)
Theorem type_accepts_Movie_and_TV_Show (o : list (string * json)) :
  let v := Zod.prop o "type" in
  (accepted (typeSchema v)
   <-> v = Some (JStr "Movie") \/ v = Some (JStr "TV Show"))
  /\ (accepted (Zod.optional typeSchema v)
      <-> v = None \/ v = Some (JStr "Movie") \/ v = Some (JStr "TV Show"))
  /\ (forall storage rnd now,
        ~ accepted (typeSchema v) ->
        let (res, storage') := POST_api_movies storage rnd now (JObj o) in
        Response.code res = 400 /\ storage' = storage)
  /\ (forall storage now idParam,
        ~ accepted (Zod.optional typeSchema v) ->
        let (res, storage') :=
          PUT_api_movies_id storage now idParam (JObj o) in
        Response.code res = 400 /\ storage' = storage).
Proof.
  intros v.
  split; [apply typeSchema_accepted|].
  split; [apply optional_typeSchema_accepted|].
  split.
  - intros storage rnd now Hrej.
    unfold POST_api_movies, insertMovieSchema. fold v.
    destruct (typeSchema v) as [e|t] eqn:E.
    + destruct (titleSchema _), (directorSchema _), (budgetSchema _),
        (locationSchema _), (durationSchema _), (yearTimeSchema _);
        split; reflexivity.
    + exfalso. apply Hrej. now exists t.
  - intros storage now idParam Hrej.
    unfold PUT_api_movies_id.
    destruct (idParamSchema idParam) as [e|id]; [split; reflexivity|].
    unfold updateSchema, insertMovieSchema_partial. fold v.
    destruct (Zod.optional typeSchema v) as [e|t] eqn:E.
    + destruct (Zod.optional titleSchema _),
        (Zod.optional directorSchema _), (Zod.optional budgetSchema _),
        (Zod.optional locationSchema _), (Zod.optional durationSchema _),
        (Zod.optional yearTimeSchema _); split; reflexivity.
    + exfalso. apply Hrej. now exists t.
Qed.

(* ================================================================== *)
(** * More on the map *)
(* ================================================================== *)

Section MoreMapFacts.
Context {V : Type}.
Implicit Types (m : JSMap.t V) (k : string) (v : V).

Lemma set_absent m k v :
  JSMap.get m k = None -> JSMap.set m k v = (m ++ [(k, v)])%list.
Proof.
  induction m as [|[k' v'] r IH]; simpl; auto.
  destruct (String.eqb k' k); [discriminate|].
  intros H. now rewrite IH.
Qed.

Lemma size_set m k v :
  JSMap.size (JSMap.set m k v)
  = match JSMap.get m k with
    | Some _ => JSMap.size m
    | None => JSMap.size m + 1
    end.
Proof.
  unfold JSMap.size. induction m as [|[k' v'] r IH]; simpl JSMap.set.
  - reflexivity.
  - simpl JSMap.get. destruct (String.eqb k' k).
    + reflexivity.
    + simpl List.length. rewrite !Nat2Z.inj_succ, IH.
      destruct (JSMap.get r k); lia.
Qed.

Lemma get_None_not_key m k :
  JSMap.get m k = None -> ~ In k (JSMap.keys m).
Proof.
  induction m as [|[k' v'] r IH]; simpl; auto.
  destruct (String.eqb_spec k' k); [discriminate|].
  intros H [E|Hin]; [contradiction|]. now apply IH.
Qed.

Lemma not_key_get_None m k :
  ~ In k (JSMap.keys m) -> JSMap.get m k = None.
Proof.
  induction m as [|[k' v'] r IH]; simpl; auto.
  intros H. destruct (String.eqb_spec k' k) as [E|N]; [tauto|].
  apply IH. tauto.
Qed.

Lemma keys_set_absent m k v :
  JSMap.get m k = None ->
  JSMap.keys (JSMap.set m k v) = (JSMap.keys m ++ [k])%list.
Proof.
  intros H. rewrite set_absent by assumption.
  unfold JSMap.keys. now rewrite map_app.
Qed.

Lemma NoDup_keys_set m k v :
  NoDup (JSMap.keys m) -> NoDup (JSMap.keys (JSMap.set m k v)).
Proof.
  intros Hnd. destruct (JSMap.get m k) as [v0|] eqn:G.
  - now rewrite (keys_set_present _ _ _ _ G).
  - rewrite keys_set_absent by assumption.
    apply NoDup_app; auto.
    + repeat constructor. intros [].
    + intros x Hx [E|[]]. subst x. now apply (get_None_not_key m k).
Qed.

Lemma NoDup_keys_delete m k :
  NoDup (JSMap.keys m) -> NoDup (JSMap.keys (JSMap.delete m k)).
Proof.
  induction m as [|[k' v'] r IH]; simpl; auto.
  intros Hnd. inversion Hnd as [|? ? Hnot Hr]; subst.
  destruct (String.eqb k' k); simpl; auto.
  constructor; auto.
  intros Hin. apply Hnot. now apply In_keys_delete in Hin.
Qed.

(** Deleting a key that is present takes one binding away. *)
Lemma length_delete_present m k v :
  NoDup (JSMap.keys m) ->
  JSMap.get m k = Some v ->
  S (List.length (JSMap.delete m k)) = List.length m.
Proof.
  induction m as [|[k' v'] r IH]; simpl; [discriminate|].
  intros Hnd. inversion Hnd as [|? ? Hnot Hr]; subst.
  destruct (String.eqb_spec k' k) as [E|N]; simpl.
  - intros _. subst k'.
    now rewrite (delete_absent r k (not_key_get_None r k Hnot)).
  - intros G. now rewrite (IH Hr G).
Qed.

Lemma size_delete_present m k v :
  NoDup (JSMap.keys m) ->
  JSMap.get m k = Some v ->
  JSMap.size (JSMap.delete m k) = JSMap.size m - 1.
Proof.
  intros Hnd G. unfold JSMap.size.
  rewrite <- (length_delete_present m k v Hnd G). lia.
Qed.
End MoreMapFacts.

(* ================================================================== *)
(** * The shape of reachable stores *)
(* ================================================================== *)

Lemma keyedById_set (this : MemStorage) (k : string) (m : Movie.t) :
  keyedById this -> Movie.id m = k -> keyedById (JSMap.set this k m).
Proof.
  unfold keyedById. intros H E.
  induction this as [|[k' v'] r IH]; simpl.
  - repeat constructor. exact E.
  - inversion_clear H as [|? ? Hh Hr].
    destruct (String.eqb_spec k' k) as [Ek|N]; constructor; auto.
    simpl. congruence.
Qed.

Lemma keyedById_delete (this : MemStorage) (k : string) :
  keyedById this -> keyedById (JSMap.delete this k).
Proof.
  unfold keyedById, JSMap.delete. intros H.
  rewrite Forall_forall in *. intros kv Hin.
  apply filter_In in Hin. apply H. tauto.
Qed.

Lemma keyedById_get (this : MemStorage) (k : string) (m : Movie.t) :
  keyedById this -> JSMap.get this k = Some m -> Movie.id m = k.
Proof.
  unfold keyedById. induction 1 as [|[k' v'] r Hh Hr IH]; simpl;
    [discriminate|].
  destruct (String.eqb_spec k' k) as [E|N]; auto.
  intros H. injection H as <-. simpl in Hh. congruence.
Qed.

Lemma reachable_shape (w : World) :
  reachable w -> NoDup (JSMap.keys (movies w)) /\ keyedById (movies w).
Proof.
  induction 1 as [t0|w w' Hw [Hnd Hk] Hstep]; simpl.
  - split; constructor.
  - destruct Hstep as [w rnd now im Hc|w id upd now u s' Hc Hu|w id];
      simpl.
    + split; [now apply NoDup_keys_set|now apply keyedById_set].
    + unfold updateMovie in Hu.
      destruct (JSMap.get (movies w) id) as [existing|] eqn:G;
        [|discriminate].
      injection Hu as _ <-.
      split; [now apply NoDup_keys_set|].
      apply keyedById_set; auto. simpl.
      now apply (keyedById_get (movies w)).
    + split; [now apply NoDup_keys_delete|now apply keyedById_delete].
Qed.

Lemma values_delete_keyed (this : MemStorage) (id : string) :
  keyedById this ->
  JSMap.values (JSMap.delete this id)
  = filter (fun m => negb (String.eqb (Movie.id m) id)) (JSMap.values this).
Proof.
  unfold keyedById. induction 1 as [|[k v] r Hh Hr IH]; simpl; auto.
  simpl in Hh. rewrite Hh.
  destruct (String.eqb k id); simpl; now rewrite <- IH.
Qed.

Lemma ids_are_keys (this : MemStorage) :
  keyedById this -> map Movie.id (JSMap.values this) = JSMap.keys this.
Proof.
  unfold keyedById. induction 1 as [|[k v] r Hh Hr IH]; simpl; auto.
  simpl in Hh. now rewrite Hh, <- IH.
Qed.

Lemma In_values_get (this : MemStorage) (m : Movie.t) :
  NoDup (JSMap.keys this) -> keyedById this ->
  In m (JSMap.values this) -> JSMap.get this (Movie.id m) = Some m.
Proof.
  unfold keyedById. intros Hnd Hk.
  induction Hk as [|[k v] r Hh Hr IH]; simpl; [intros []|].
  inversion_clear Hnd as [|? ? Hnot Hnd']. simpl in Hh.
  intros [E|Hin].
  - subst v. rewrite Hh. now rewrite String.eqb_refl.
  - destruct (String.eqb_spec k (Movie.id m)) as [Ek|N]; auto.
    exfalso. apply Hnot. rewrite Ek.
    rewrite <- (ids_are_keys r Hr). now apply in_map.
Qed.

(** Replacing the value under a key that is present replaces that one
    entry where it stands. *)
Lemma values_set_keyed (this : MemStorage) (id : string)
    (existing updated : Movie.t) :
  NoDup (JSMap.keys this) -> keyedById this ->
  JSMap.get this id = Some existing ->
  JSMap.values (JSMap.set this id updated)
  = map (fun m => if String.eqb (Movie.id m) id then updated else m)
      (JSMap.values this).
Proof.
  unfold keyedById. intros Hnd Hk.
  induction Hk as [|[k v] r Hh Hr IH]; simpl; [discriminate|].
  inversion_clear Hnd as [|? ? Hnot Hnd']. simpl in Hh. rewrite Hh.
  destruct (String.eqb_spec k id) as [E|N]; simpl.
  - intros _. f_equal. subst k.
    rewrite <- (ids_are_keys r Hr) in Hnot.
    revert Hnot. generalize (JSMap.values r) as l.
    induction l as [|x l IHl]; simpl; auto. intros Hnot.
    destruct (String.eqb_spec (Movie.id x) id) as [Ex|Nx].
    + exfalso. apply Hnot. left. congruence.
    + f_equal. apply IHl. tauto.
  - intros G. f_equal. now apply IH.
Qed.

(* ================================================================== *)
(** * More on sorting and slicing *)
(* ================================================================== *)

Section MoreSortFacts.
Implicit Types (x : Movie.t) (l : list Movie.t).

(** Sorting commutes with a change of the entries that keeps their
    creation times. *)
Lemma insert_map (f : Movie.t -> Movie.t) x l :
  (forall m, In m (x :: l) -> Movie.createdAt (f m) = Movie.createdAt m) ->
  JSArray.insert byCreatedAt (f x) (map f l)
  = map f (JSArray.insert byCreatedAt x l).
Proof.
  intros Hf. induction l as [|y r IH]; simpl; auto.
  unfold byCreatedAt at 1 3.
  rewrite (Hf x), (Hf y) by (simpl; auto).
  destruct (Movie.createdAt y - Movie.createdAt x <=? 0); simpl; auto.
  rewrite IH; auto.
  intros m [E|Hin]; apply Hf; simpl; auto.
Qed.

Lemma sort_map (f : Movie.t -> Movie.t) l :
  (forall m, In m l -> Movie.createdAt (f m) = Movie.createdAt m) ->
  JSArray.sort byCreatedAt (map f l) = map f (JSArray.sort byCreatedAt l).
Proof.
  induction l as [|x r IH]; intros Hf; simpl; auto.
  rewrite IH by (intros m Hm; apply Hf; simpl; auto).
  apply insert_map. intros m [E|Hin]; apply Hf; simpl; auto.
  right. now apply (Permutation_in _ (sort_perm r)).
Qed.

Lemma slice_map {A B : Type} (f : A -> B) (l : list A) (a b : Z) :
  JSArray.slice (map f l) a b = map f (JSArray.slice l a b).
Proof.
  unfold JSArray.slice. rewrite length_map.
  now rewrite skipn_map, firstn_map.
Qed.

(** Sorting commutes with dropping entries. *)
Lemma insert_filter (p : Movie.t -> bool) x l :
  StronglySorted notOlder l ->
  filter p (JSArray.insert byCreatedAt x l)
  = if p x then JSArray.insert byCreatedAt x (filter p l)
    else filter p l.
Proof.
  induction 1 as [|y r Hr IH Hy]; simpl.
  - destruct (p x); reflexivity.
  - unfold byCreatedAt at 1.
    destruct (Z.leb_spec (Movie.createdAt y - Movie.createdAt x) 0)
      as [Hle|Hgt]; simpl.
    + destruct (p x) eqn:Px; [|reflexivity].
      destruct (p y) eqn:Py; simpl.
      * unfold byCreatedAt at 1.
        destruct (Z.leb_spec (Movie.createdAt y - Movie.createdAt x) 0);
          [reflexivity|lia].
      * assert (Hf : Forall (fun z => Movie.createdAt z
                                      <= Movie.createdAt x) (filter p r)).
        { rewrite Forall_forall in *. intros z Hz.
          apply filter_In in Hz. destruct Hz as [Hz _].
          specialize (Hy z Hz). unfold notOlder in Hy. lia. }
        destruct (filter p r) as [|z r']; simpl; auto.
        inversion_clear Hf as [|? ? Hz _].
        unfold byCreatedAt at 1.
        destruct (Z.leb_spec (Movie.createdAt z - Movie.createdAt x) 0);
          [reflexivity|lia].
    + rewrite IH. destruct (p y) eqn:Py; simpl.
      * destruct (p x); [|reflexivity].
        unfold byCreatedAt at 2.
        destruct (Z.leb_spec (Movie.createdAt y - Movie.createdAt x) 0);
          [lia|reflexivity].
      * reflexivity.
Qed.

Lemma sort_filter (p : Movie.t -> bool) l :
  JSArray.sort byCreatedAt (filter p l)
  = filter p (JSArray.sort byCreatedAt l).
Proof.
  induction l as [|x r IH]; simpl; auto.
  rewrite insert_filter by apply sort_sorted.
  destruct (p x); simpl; now rewrite IH.
Qed.

(** An entry that is not newer than the head of [rest] goes in before
    [rest]. *)
Lemma insert_before x l rest :
  match rest with
  | [] => True
  | y :: _ => Movie.createdAt y <= Movie.createdAt x
  end ->
  JSArray.insert byCreatedAt x (l ++ rest)
  = (JSArray.insert byCreatedAt x l ++ rest)%list.
Proof.
  intros Hrest. induction l as [|z r IH]; simpl.
  - destruct rest as [|y rest']; simpl; auto.
    unfold byCreatedAt at 1.
    destruct (Z.leb_spec (Movie.createdAt y - Movie.createdAt x) 0);
      [reflexivity|lia].
  - destruct (byCreatedAt x z <=? 0); simpl; auto. now rewrite IH.
Qed.

(** An entry older than all of [l] goes in after [l]. *)
Lemma insert_after x l rest :
  Forall (fun z => Movie.createdAt x < Movie.createdAt z) l ->
  JSArray.insert byCreatedAt x (l ++ rest)
  = (l ++ JSArray.insert byCreatedAt x rest)%list.
Proof.
  induction 1 as [|z r Hz Hr IH]; simpl; auto.
  unfold byCreatedAt at 1.
  destruct (Z.leb_spec (Movie.createdAt z - Movie.createdAt x) 0);
    [lia|]. now rewrite IH.
Qed.

(** Where the sort puts an entry that was appended last: behind the
    entries that are not older, in front of the older ones. *)
Lemma sort_appended x l :
  exists newer older,
    JSArray.sort byCreatedAt l = (newer ++ older)%list
    /\ JSArray.sort byCreatedAt (l ++ [x]) = (newer ++ x :: older)%list
    /\ Forall (fun m => Movie.createdAt x <= Movie.createdAt m) newer
    /\ Forall (fun m => Movie.createdAt m < Movie.createdAt x) older.
Proof.
  induction l as [|a r IH]; simpl.
  - exists [], []. repeat split; constructor.
  - destruct IH as (newer & older & E1 & E2 & Hn & Ho).
    rewrite E1, E2.
    destruct (Z.le_gt_cases (Movie.createdAt x) (Movie.createdAt a))
      as [Hle|Hgt].
    + exists (JSArray.insert byCreatedAt a newer), older.
      split; [|split; [|split]]; auto.
      * apply insert_before. destruct older as [|y o]; auto.
        inversion_clear Ho. lia.
      * now apply (insert_before a newer (x :: older)).
      * rewrite Forall_forall in *. intros z Hz.
        apply (Permutation_in _ (insert_perm a newer)) in Hz.
        destruct Hz as [<-|Hz]; auto.
    + assert (Hall : Forall (fun z => Movie.createdAt a
                                      < Movie.createdAt z) newer).
      { rewrite Forall_forall in *. intros z Hz.
        specialize (Hn z Hz). simpl in Hn. lia. }
      exists newer, (JSArray.insert byCreatedAt a older).
      split; [|split; [|split]]; auto.
      * now apply insert_after.
      * rewrite (insert_after a newer (x :: older) Hall). simpl.
        unfold byCreatedAt at 1.
        destruct (Z.leb_spec (Movie.createdAt x - Movie.createdAt a) 0);
          [lia|reflexivity].
      * rewrite Forall_forall in *. intros z Hz.
        apply (Permutation_in _ (insert_perm a older)) in Hz.
        destruct Hz as [<-|Hz]; auto.
Qed.
End MoreSortFacts.

Lemma twoMovies_reachable : reachable twoMovies.
Proof.
  apply (reachable_step oneMovie); [apply oneMovie_reachable|].
  apply (step_create oneMovie). simpl. lia.
Defined.

(* ================================================================== *)
(** * The store: what each mutation does to the rest *)
(* ================================================================== *)

(** X1. [createMovie] leaves every entry stored under another id as it
    was; the count grows by one when the generated id is new, and stays
    when the id was taken (the entry under it is then overwritten). *)
Theorem createMovie_frame (this : MemStorage) (rnd : nat -> byte) (now : Z)
    (insertMovie : InsertMovie.t) :
  let (movie, this') := createMovie this rnd now insertMovie in
  (forall other, other <> Movie.id movie ->
     getMovie this' other = getMovie this other)
  /\ getMoviesCount this'
     = match getMovie this (Movie.id movie) with
       | None => getMoviesCount this + 1
       | Some _ => getMoviesCount this
       end.
Proof.
  unfold createMovie, getMovie, getMoviesCount. cbn [Movie.id]. split.
  - intros other Hne. apply get_set_other. congruence.
  - rewrite size_set. destruct (JSMap.get this (randomUUID rnd)); auto.
Qed.

(** X2. In a reachable store every entry is stored under its own id, no
    two entries share an id, and every entry that is listed is fetched by
    its id. *)
Theorem reachable_entries_by_id (w : World) :
  reachable w ->
  NoDup (map Movie.id (JSMap.values (movies w)))
  /\ (forall k m, getMovie (movies w) k = Some m -> Movie.id m = k)
  /\ (forall m, In m (JSMap.values (movies w)) ->
        getMovie (movies w) (Movie.id m) = Some m).
Proof.
  intros Hw. destruct (reachable_shape w Hw) as [Hnd Hk].
  split; [now rewrite ids_are_keys|]. split.
  - intros k m. now apply keyedById_get.
  - intros m. now apply In_values_get.
Qed.

Lemma reachable_entries_by_id_witness :
  NoDup (map Movie.id (JSMap.values (movies twoMovies)))
  /\ (forall k m, getMovie (movies twoMovies) k = Some m -> Movie.id m = k)
  /\ (forall m, In m (JSMap.values (movies twoMovies)) ->
        getMovie (movies twoMovies) (Movie.id m) = Some m).
Proof. apply (reachable_entries_by_id twoMovies twoMovies_reachable). Defined.

(** X3. In a reachable store, [deleteMovie] on an id that is present
    removes that entry and no other: the id is then absent, every other
    id answers as before, the count drops by one, and the listing is the
    old listing without that entry, the others in their old order. *)
Theorem deleteMovie_removes_one (w : World) (id : string) (m : Movie.t) :
  reachable w ->
  getMovie (movies w) id = Some m ->
  let this' := deleteMovie (movies w) id in
  getMovie this' id = None
  /\ (forall other, other <> id ->
        getMovie this' other = getMovie (movies w) other)
  /\ getMoviesCount this' = getMoviesCount (movies w) - 1
  /\ allMovies this'
     = filter (fun x => negb (String.eqb (Movie.id x) id))
         (allMovies (movies w)).
Proof.
  intros Hw G. destruct (reachable_shape w Hw) as [Hnd Hk].
  unfold deleteMovie, getMovie, getMoviesCount, allMovies in *. cbv zeta.
  split; [apply get_delete_same|].
  split; [intros other Hne; apply get_delete_other; congruence|].
  split; [now apply (size_delete_present _ _ m)|].
  rewrite values_delete_keyed by assumption. apply sort_filter.
Qed.

Lemma deleteMovie_removes_one_witness :
  let id := "00000000-0000-4000-8000-000000000000" in
  let this' := deleteMovie (movies twoMovies) id in
  getMoviesCount this' = 1
  /\ getMovie this' id = None
  /\ (forall other, other <> id ->
        getMovie this' other = getMovie (movies twoMovies) other)
  /\ getMoviesCount this' = getMoviesCount (movies twoMovies) - 1
  /\ allMovies this'
     = filter (fun x => negb (String.eqb (Movie.id x) id))
         (allMovies (movies twoMovies)).
Proof.
  intros id this'. split; [reflexivity|].
  apply (deleteMovie_removes_one twoMovies id
           (fst (createMovie newMemStorage (fun _ => x00) 1 dune))
           twoMovies_reachable).
  reflexivity.
Defined.

(** X4. In a reachable store, [updateMovie] keeps the count and the
    place of every entry in the listing: every page after the update is
    the page before it with the updated entry in the place of the
    existing one, so the ids on every page are the same. *)
Theorem updateMovie_keeps_position (w : World) (id : string)
    (updateData : PartialInsertMovie.t) (now : Z) (updated : Movie.t)
    (this' : MemStorage) (page limit : Z) :
  reachable w ->
  updateMovie (movies w) id updateData now = inr (updated, this') ->
  getMoviesCount this' = getMoviesCount (movies w)
  /\ getAllMovies this' page limit
     = map (fun m => if String.eqb (Movie.id m) id then updated else m)
         (getAllMovies (movies w) page limit)
  /\ map Movie.id (getAllMovies this' page limit)
     = map Movie.id (getAllMovies (movies w) page limit).
Proof.
  intros Hw Hu. destruct (reachable_shape w Hw) as [Hnd Hk].
  unfold updateMovie in Hu.
  destruct (JSMap.get (movies w) id) as [existing|] eqn:G; [|discriminate].
  injection Hu as Eu Es. pose proof (keyedById_get _ _ _ Hk G) as Hid.
  rewrite Eu in Es.
  assert (Hupd_id : Movie.id updated = id) by (subst updated; exact Hid).
  assert (Hupd_at : Movie.createdAt updated = Movie.createdAt existing)
    by (now subst updated).
  clear Eu.
  assert (Hpage : getAllMovies this' page limit
     = map (fun m => if String.eqb (Movie.id m) id then updated else m)
         (getAllMovies (movies w) page limit)).
  { unfold getAllMovies. subst this'.
    rewrite (values_set_keyed _ _ existing) by assumption.
    rewrite sort_map; [apply slice_map|].
    intros m Hm. destruct (String.eqb_spec (Movie.id m) id) as [E|N]; auto.
    pose proof (In_values_get _ _ Hnd Hk Hm) as Gm.
    rewrite E, G in Gm. injection Gm as <-. exact Hupd_at. }
  split; [|split; [exact Hpage|]].
  - subst this'. unfold getMoviesCount. rewrite size_set. now rewrite G.
  - rewrite Hpage, map_map. apply map_ext. intros m.
    destruct (String.eqb_spec (Movie.id m) id); congruence.
Qed.

Lemma updateMovie_keeps_position_witness :
  let id := "00000000-0000-4000-8000-000000000000" in
  let updateData :=
    {| PartialInsertMovie.title := None;
       PartialInsertMovie.type := Some TTVShow;
       PartialInsertMovie.director := None;
       PartialInsertMovie.budget := Some "$1M";
       PartialInsertMovie.location := None;
       PartialInsertMovie.duration := None;
       PartialInsertMovie.yearTime := None |} in
  exists updated this',
    updateMovie (movies twoMovies) id updateData 3 = inr (updated, this')
    /\ map Movie.id (getAllMovies this' 1 10)
       = ["01010101-0101-4101-8101-010101010101"; id]
    /\ getMoviesCount this' = getMoviesCount (movies twoMovies)
    /\ getAllMovies this' 1 10
       = map (fun m => if String.eqb (Movie.id m) id then updated else m)
           (getAllMovies (movies twoMovies) 1 10)
    /\ map Movie.id (getAllMovies this' 1 10)
       = map Movie.id (getAllMovies (movies twoMovies) 1 10).
Proof.
  intros id updateData. eexists. eexists.
  split; [reflexivity|]. split; [reflexivity|].
  apply (updateMovie_keeps_position twoMovies id updateData 3 _ _ 1 10
           twoMovies_reachable).
  reflexivity.
Defined.

Lemma values_create_fresh (this : MemStorage) (rnd : nat -> byte) (now : Z)
    (insertMovie : InsertMovie.t) :
  getMovie this (randomUUID rnd) = None ->
  JSMap.values (snd (createMovie this rnd now insertMovie))
  = (JSMap.values this ++ [fst (createMovie this rnd now insertMovie)])%list.
Proof.
  intros G. unfold createMovie, getMovie in *. simpl.
  rewrite set_absent by assumption.
  unfold JSMap.values. now rewrite map_app.
Qed.

(** X5. Where a created entry is listed. When the generated id is new,
    the listing after [createMovie] is the listing before it with the new
    entry put in behind every entry whose [createdAt] is not earlier than
    its own and in front of every older one; so among entries created in
    the same millisecond the latest create comes last. *)
Theorem createMovie_position (this : MemStorage) (rnd : nat -> byte)
    (now : Z) (insertMovie : InsertMovie.t) :
  getMovie this (randomUUID rnd) = None ->
  let (movie, this') := createMovie this rnd now insertMovie in
  exists newer older,
    allMovies this = (newer ++ older)%list
    /\ allMovies this' = (newer ++ movie :: older)%list
    /\ Forall (fun m => now <= Movie.createdAt m) newer
    /\ Forall (fun m => Movie.createdAt m < now) older.
Proof.
  intros G.
  pose proof (values_create_fresh this rnd now insertMovie G) as Hv.
  destruct (createMovie this rnd now insertMovie) as [movie this'] eqn:Ec.
  simpl in Hv. unfold allMovies. rewrite Hv.
  assert (Hnow : Movie.createdAt movie = now).
  { unfold createMovie in Ec. injection Ec as <- _. reflexivity. }
  destruct (sort_appended movie (JSMap.values this))
    as (newer & older & E1 & E2 & Hn & Ho).
  rewrite Hnow in Hn, Ho. exists newer, older. auto.
Qed.

Lemma createMovie_position_witness :
  let (movie, this') :=
    createMovie (movies oneMovie) (fun _ => x01) 1 dune in
  allMovies this'
  = (allMovies (movies oneMovie) ++ [movie])%list
  /\ exists newer older,
       allMovies (movies oneMovie) = (newer ++ older)%list
       /\ allMovies this' = (newer ++ movie :: older)%list
       /\ Forall (fun m => 1 <= Movie.createdAt m) newer
       /\ Forall (fun m => Movie.createdAt m < 1) older.
Proof.
  pose proof (createMovie_position (movies oneMovie) (fun _ => x01) 1 dune
                eq_refl) as H.
  destruct (createMovie (movies oneMovie) (fun _ => x01) 1 dune)
    as [movie this'] eqn:Ec.
  split; [|exact H].
  injection Ec as <- <-. reflexivity.
Defined.

(** X6. In a reachable store, an entry created at a time after the last
    clock reading, under a new id, is the first of the listing, and the
    rest of the listing is as before: page 1 starts with it, followed by
    the former page 1 cut to the page size. *)
Theorem createMovie_on_top (w : World) (rnd : nat -> byte) (now : Z)
    (insertMovie : InsertMovie.t) (limit : Z) :
  reachable w ->
  clock w < now ->
  getMovie (movies w) (randomUUID rnd) = None ->
  1 <= limit ->
  let (movie, this') := createMovie (movies w) rnd now insertMovie in
  allMovies this' = movie :: allMovies (movies w)
  /\ getAllMovies this' 1 limit
     = firstn (Z.to_nat limit) (movie :: getAllMovies (movies w) 1 limit).
Proof.
  intros Hw Hc G Hl.
  pose proof (values_create_fresh (movies w) rnd now insertMovie G) as Hv.
  destruct (createMovie (movies w) rnd now insertMovie) as [movie this']
    eqn:Ec.
  simpl in Hv.
  assert (Hnow : Movie.createdAt movie = now).
  { unfold createMovie in Ec. injection Ec as <- _. reflexivity. }
  destruct (sort_appended movie (JSMap.values (movies w)))
    as (newer & older & E1 & E2 & Hn & Ho).
  rewrite <- Hv in E2. fold (allMovies (movies w)) in E1.
  fold (allMovies this') in E2. rewrite Hnow in Hn.
  assert (newer = []) as ->.
  { destruct newer as [|x newer']; auto. exfalso.
    inversion_clear Hn as [|? ? Hx _].
    assert (Hin : In x (JSMap.values (movies w))).
    { apply (Permutation_in _ (sort_perm (JSMap.values (movies w)))).
      unfold allMovies in E1. rewrite E1. now left. }
    destruct (reachable_timestamps w Hw x Hin). lia. }
  simpl in E1, E2. split; [congruence|].
  rewrite !getAllMovies_window by lia. fold (allMovies this').
  fold (allMovies (movies w)). rewrite E2, E1.
  replace (Z.to_nat ((1 - 1) * limit)) with 0%nat by lia. simpl skipn.
  destruct (Z.to_nat limit) as [|n] eqn:En; [lia|].
  rewrite !firstn_cons. f_equal. rewrite firstn_firstn. f_equal. lia.
Qed.

Lemma createMovie_on_top_witness :
  let (movie, this') :=
    createMovie (movies oneMovie) (fun _ => x01) 2 dune in
  allMovies this' = movie :: allMovies (movies oneMovie)
  /\ getAllMovies this' 1 1
     = firstn (Z.to_nat 1) (movie :: getAllMovies (movies oneMovie) 1 1).
Proof.
  apply (createMovie_on_top oneMovie (fun _ => x01) 2 dune 1
           oneMovie_reachable); reflexivity.
Defined.

(* ================================================================== *)
(** * Pages and the list route *)
(* ================================================================== *)

Lemma count_is_length (this : MemStorage) :
  getMoviesCount this = Z.of_nat (List.length (allMovies this)).
Proof.
  unfold getMoviesCount, JSMap.size, allMovies.
  rewrite sort_length. unfold JSMap.values. now rewrite length_map.
Qed.

(** The number of entries on a page, counted on the listing. *)
Lemma length_page (this : MemStorage) (page limit : Z) :
  1 <= page -> 1 <= limit ->
  List.length (getAllMovies this page limit)
  = Nat.min (Z.to_nat limit)
      (List.length (allMovies this) - Z.to_nat ((page - 1) * limit)).
Proof.
  intros Hp Hl. rewrite getAllMovies_window by assumption.
  fold (allMovies this). now rewrite length_firstn, length_skipn.
Qed.

(** X7. The size of a page: for positive [page] and [limit],
    [getAllMovies] returns [limit] entries when that many are left from
    the offset on, the entries that are left when they are fewer, and
    none when the offset is past the end. *)
Theorem getAllMovies_length (this : MemStorage) (page limit : Z) :
  1 <= page -> 1 <= limit ->
  Z.of_nat (List.length (getAllMovies this page limit))
  = Z.max 0 (Z.min limit (getMoviesCount this - (page - 1) * limit)).
Proof.
  intros Hp Hl. rewrite length_page by assumption.
  rewrite count_is_length. nia.
Qed.

Lemma getAllMovies_length_witness :
  let this :=
    [("a", sample "a" 5); ("b", sample "b" 9); ("c", sample "c" 5)] in
  (1 <= 2 /\ 1 <= 2)
  /\ Z.of_nat (List.length (getAllMovies this 2 2))
     = Z.max 0 (Z.min 2 (getMoviesCount this - (2 - 1) * 2)).
Proof.
  intros this. split; [lia|]. apply (getAllMovies_length this 2 2); lia.
Defined.

(** X8. What [hasNext] tells the client. For a valid list request the
    response says [hasNext] exactly when entries are left behind this
    page, that is exactly when the next page is not empty; and a page
    that has a next page is full. *)
Theorem hasNext_iff_more (storage : MemStorage) (page limit : Z) :
  1 <= page -> 1 <= limit <= 100 ->
  let res := GET_api_movies storage (Zod.Integer page) (Zod.Integer limit) in
  exists pagination,
    Response.pagination res = Some pagination
    /\ (Pagination.hasNext pagination = true
        <-> page * limit < getMoviesCount storage)
    /\ (Pagination.hasNext pagination = true
        <-> getAllMovies storage (page + 1) limit <> [])
    /\ (Pagination.hasNext pagination = true ->
        Z.of_nat (List.length (getAllMovies storage page limit)) = limit).
Proof.
  intros Hp Hl res.
  exists (calculatePagination page limit (getMoviesCount storage)).
  assert (Er : Response.pagination res
               = Some (calculatePagination page limit
                         (getMoviesCount storage))).
  { unfold res, GET_api_movies, paginationSchema, Zod.int_min_max_default.
    destruct (Z.ltb_spec page 1); [lia|].
    destruct (Z.ltb_spec limit 1); [lia|].
    destruct (Z.ltb_spec 100 limit); [lia|]. reflexivity. }
  split; [exact Er|]. cbn [calculatePagination Pagination.hasNext].
  pose proof (Math_ceil_div_spec (getMoviesCount storage) limit ltac:(lia))
    as Hc.
  assert (Hmore : (page <? Math_ceil_div (getMoviesCount storage) limit)
                  = true <-> page * limit < getMoviesCount storage).
  { rewrite Z.ltb_lt. split; intros H; nia. }
  pose proof (length_page storage (page + 1) limit
                ltac:(lia) ltac:(lia)) as Hnext.
  pose proof (length_page storage page limit
                ltac:(lia) ltac:(lia)) as Hthis.
  pose proof (count_is_length storage) as Hcount.
  replace ((page + 1 - 1) * limit) with (page * limit) in Hnext by lia.
  replace ((page - 1) * limit) with (page * limit - limit) in Hthis by lia.
  assert (Hoff : 0 <= page * limit - limit) by nia.
  revert Hmore Hnext Hthis Hoff. generalize (page * limit) as off.
  intros off Hmore Hnext Hthis Hoff.
  split; [exact Hmore|]. split.
  - rewrite Hmore. split.
    + intros H E. rewrite E in Hnext. simpl in Hnext. lia.
    + intros H.
      destruct (getAllMovies storage (page + 1) limit) as [|x l];
        [contradiction|].
      simpl List.length in Hnext. lia.
  - rewrite Hmore. intros H. lia.
Qed.

Lemma hasNext_iff_more_witness :
  let storage :=
    [("a", sample "a" 5); ("b", sample "b" 9); ("c", sample "c" 5)] in
  let res := GET_api_movies storage (Zod.Integer 1) (Zod.Integer 2) in
  option_map Pagination.hasNext (Response.pagination res) = Some true
  /\ exists pagination,
       Response.pagination res = Some pagination
       /\ (Pagination.hasNext pagination = true
           <-> 1 * 2 < getMoviesCount storage)
       /\ (Pagination.hasNext pagination = true
           <-> getAllMovies storage (1 + 1) 2 <> [])
       /\ (Pagination.hasNext pagination = true ->
           Z.of_nat (List.length (getAllMovies storage 1 2)) = 2).
Proof.
  intros storage res. split; [reflexivity|].
  apply (hasNext_iff_more storage 1 2); lia.
Defined.

(** X9. Which list requests are accepted. GET /api/movies answers 200
    when [page] is absent or an integer from 1 up and [limit] is absent or
    an integer from 1 to 100, and 400 "Validation failed" otherwise; an
    absent [page] counts as 1 and an absent [limit] as 10. *)
Theorem list_validation (storage : MemStorage) (qPage qLimit : Zod.coerced) :
  let res := GET_api_movies storage qPage qLimit in
  let pageOk :=
    qPage = Zod.Absent \/ exists n, qPage = Zod.Integer n /\ 1 <= n in
  let limitOk :=
    qLimit = Zod.Absent
    \/ exists n, qLimit = Zod.Integer n /\ 1 <= n <= 100 in
  (Response.code res = 200 <-> pageOk /\ limitOk)
  /\ (~ (pageOk /\ limitOk) ->
      Response.code res = 400
      /\ Response.message res = "Validation failed"
      /\ Response.data res = Response.NoData)
  /\ GET_api_movies storage Zod.Absent qLimit
     = GET_api_movies storage (Zod.Integer 1) qLimit
  /\ GET_api_movies storage qPage Zod.Absent
     = GET_api_movies storage qPage (Zod.Integer 10).
Proof.
  intros res pageOk limitOk.
  assert (Hpage :
    (exists p, Zod.int_min_max_default 1
                 "Number must be greater than or equal to 1" None 1 qPage
               = inr p) <-> pageOk).
  { unfold pageOk. destruct qPage as [| |n|q]; simpl.
    - split; eauto.
    - split; [intros [p H]; discriminate|].
      intros [H|[n [H _]]]; discriminate.
    - destruct (Z.ltb_spec n 1) as [Hlt|Hge]; simpl.
      + split; [intros [p H]; discriminate|].
        intros [H|[n' [H Hn]]]; [discriminate|]. injection H as <-. lia.
      + split; eauto.
    - split; [intros [p H]; discriminate|].
      intros [H|[n [H _]]]; discriminate. }
  assert (Hlimit :
    (exists l, Zod.int_min_max_default 1
                 "Number must be greater than or equal to 1"
                 (Some (100, "Number must be less than or equal to 100"))
                 10 qLimit
               = inr l) <-> limitOk).
  { unfold limitOk. destruct qLimit as [| |n|q]; simpl.
    - split; eauto.
    - split; [intros [p H]; discriminate|].
      intros [H|[n [H _]]]; discriminate.
    - destruct (Z.ltb_spec n 1) as [Hlt|Hge],
        (Z.ltb_spec 100 n) as [Hgt|Hle]; simpl;
        try (split; [intros [p H]; discriminate|];
             intros [H|[n' [H Hn]]]; [discriminate|];
             injection H as <-; lia).
      split; eauto.
    - split; [intros [p H]; discriminate|].
      intros [H|[n [H _]]]; discriminate. }
  assert (Hres :
    (pageOk /\ limitOk -> Response.code res = 200)
    /\ (~ (pageOk /\ limitOk) ->
        Response.code res = 400
        /\ Response.message res = "Validation failed"
        /\ Response.data res = Response.NoData)).
  { unfold res, GET_api_movies, paginationSchema.
    destruct (Zod.int_min_max_default 1 _ None 1 qPage) as [e1|p].
    - split.
      + intros [Hp _]. apply Hpage in Hp. destruct Hp; discriminate.
      + intros _. destruct (Zod.int_min_max_default 1 _ _ 10 qLimit);
          repeat split.
    - destruct (Zod.int_min_max_default 1 _ _ 10 qLimit) as [e2|l].
      + split.
        * intros [_ Hl]. apply Hlimit in Hl. destruct Hl; discriminate.
        * intros _. repeat split.
      + split; [reflexivity|].
        intros Hno. exfalso. apply Hno. split.
        * apply Hpage. eauto.
        * apply Hlimit. eauto. }
  destruct Hres as [Hyes Hno].
  split; [|split; [exact Hno|split; reflexivity]].
  split; [|exact Hyes].
  intros H200.
  assert (Hdec : (pageOk /\ limitOk) \/ ~ (pageOk /\ limitOk)).
  { unfold res, GET_api_movies, paginationSchema in H200.
    destruct (Zod.int_min_max_default 1 _ None 1 qPage) as [e1|p] eqn:E1.
    - destruct (Zod.int_min_max_default 1 _ _ 10 qLimit); discriminate.
    - destruct (Zod.int_min_max_default 1 _ _ 10 qLimit) as [e2|l] eqn:E2;
        [discriminate|].
      left. split; [apply Hpage|apply Hlimit]; eauto. }
  destruct Hdec as [Hok|Hbad]; auto.
  destruct (Hno Hbad) as [H400 _]. rewrite H400 in H200. discriminate.
Qed.

(* ================================================================== *)
(** * What the schemas accept *)
(* ================================================================== *)

Lemma string_min_max_accepts (lo hi : nat) (loMsg hiMsg : string)
    (v : option json) (s : string) :
  Zod.string_min_max lo loMsg hi hiMsg v = inr s
  <-> v = Some (JStr s) /\ within lo hi s.
Proof.
  unfold Zod.string_min_max, within.
  destruct v as [[| | |s'| |]|];
    try (split; [discriminate|intros [H _]; discriminate]).
  destruct (Nat.ltb_spec (String.length s') lo) as [H1|H1],
    (Nat.ltb_spec hi (String.length s')) as [H2|H2]; simpl;
    try (split; [discriminate|];
         intros [H Hb]; injection H as <-; lia).
  split.
  - intros H. injection H as <-. split; [reflexivity|lia].
  - intros [H _]. now injection H as <-.
Qed.

Lemma string_min_max_issues (lo hi : nat) (loMsg hiMsg : string)
    (v : option json) (issues : list string) :
  Zod.string_min_max lo loMsg hi hiMsg v = inl issues -> issues <> [].
Proof.
  unfold Zod.string_min_max.
  destruct v as [[| | |s'| |]|]; try (intros H; injection H as <-;
                                       discriminate).
  destruct (String.length s' <? lo)%nat, (hi <? String.length s')%nat;
    simpl; intros H; try discriminate; injection H as <-; discriminate.
Qed.

Lemma typeSchema_accepts (v : option json) (t : MovieType) :
  typeSchema v = inr t <-> v = Some (JStr (literal t)).
Proof.
  unfold typeSchema. split.
  - destruct v as [[| | |s| |]|]; try discriminate.
    destruct (String.eqb_spec s "Movie") as [->|N1].
    + intros H. now injection H as <-.
    + destruct (String.eqb_spec s "TV Show") as [->|N2]; [|discriminate].
      intros H. now injection H as <-.
  - intros ->. now destruct t.
Qed.

Lemma typeSchema_issues (v : option json) (issues : list string) :
  typeSchema v = inl issues -> issues <> [].
Proof.
  unfold typeSchema. destruct v as [[| | |s| |]|];
    try (intros H; injection H as <-; discriminate).
  destruct (String.eqb s "Movie"); [discriminate|].
  destruct (String.eqb s "TV Show"); [discriminate|].
  intros H; injection H as <-; discriminate.
Qed.

(** What [insertMovieSchema] yields was sent, within the bounds. *)
Lemma insertMovieSchema_sound (o : list (string * json))
    (data : InsertMovie.t) :
  insertMovieSchema (JObj o) = inr data ->
  sent o "title" 2 255 (InsertMovie.title data)
  /\ Zod.prop o "type" = Some (JStr (literal (InsertMovie.type data)))
  /\ sent o "director" 1 255 (InsertMovie.director data)
  /\ sent o "budget" 1 100 (InsertMovie.budget data)
  /\ sent o "location" 1 255 (InsertMovie.location data)
  /\ sent o "duration" 1 50 (InsertMovie.duration data)
  /\ sent o "yearTime" 1 50 (InsertMovie.yearTime data).
Proof.
  unfold insertMovieSchema, sent.
  destruct (titleSchema _) eqn:E1, (typeSchema _) eqn:E2,
    (directorSchema _) eqn:E3, (budgetSchema _) eqn:E4,
    (locationSchema _) eqn:E5, (durationSchema _) eqn:E6,
    (yearTimeSchema _) eqn:E7; try discriminate.
  intros H. injection H as <-. simpl.
  apply string_min_max_accepts in E1, E3, E4, E5, E6, E7.
  apply typeSchema_accepts in E2. tauto.
Qed.

(** X10. What a create request must send. [insertMovieSchema] accepts an
    object body exactly when it has each of the seven fields as a string
    within the field's bounds (title 2 to 255, director and location 1 to
    255, budget 1 to 100, duration and yearTime 1 to 50) and [type] as one
    of the two literals; the parsed fields are the strings sent, as
    sent. *)
Theorem insertMovieSchema_accepts (o : list (string * json))
    (data : InsertMovie.t) :
  insertMovieSchema (JObj o) = inr data
  <-> sent o "title" 2 255 (InsertMovie.title data)
      /\ Zod.prop o "type" = Some (JStr (literal (InsertMovie.type data)))
      /\ sent o "director" 1 255 (InsertMovie.director data)
      /\ sent o "budget" 1 100 (InsertMovie.budget data)
      /\ sent o "location" 1 255 (InsertMovie.location data)
      /\ sent o "duration" 1 50 (InsertMovie.duration data)
      /\ sent o "yearTime" 1 50 (InsertMovie.yearTime data).
Proof.
  split; [apply insertMovieSchema_sound|].
  unfold insertMovieSchema, sent.
  intros (E1 & E2 & E3 & E4 & E5 & E6 & E7).
  apply (string_min_max_accepts _ _ "Title must be at least 2 characters"
           "String must contain at most 255 character(s)") in E1.
  apply typeSchema_accepts in E2.
  apply (string_min_max_accepts _ _ "Director is required"
           "String must contain at most 255 character(s)") in E3.
  apply (string_min_max_accepts _ _ "Budget is required"
           "String must contain at most 100 character(s)") in E4.
  apply (string_min_max_accepts _ _ "Location is required"
           "String must contain at most 255 character(s)") in E5.
  apply (string_min_max_accepts _ _ "Duration is required"
           "String must contain at most 50 character(s)") in E6.
  apply (string_min_max_accepts _ _ "Year/Time is required"
           "String must contain at most 50 character(s)") in E7.
  fold titleSchema in E1. fold directorSchema in E3.
  fold budgetSchema in E4. fold locationSchema in E5.
  fold durationSchema in E6. fold yearTimeSchema in E7.
  rewrite E1, E2, E3, E4, E5, E6, E7. now destruct data.
Qed.

Lemma insertMovieSchema_object (body : json) (data : InsertMovie.t) :
  insertMovieSchema body = inr data -> exists o, body = JObj o.
Proof. destruct body; try discriminate. eauto. Qed.

Lemma created_entry_valid (this : MemStorage) (rnd : nat -> byte) (now : Z)
    (body : json) (data : InsertMovie.t) :
  insertMovieSchema body = inr data ->
  validEntry (fst (createMovie this rnd now data)).
Proof.
  intros H. destruct (insertMovieSchema_object body data H) as [o ->].
  apply insertMovieSchema_sound in H. unfold sent in H.
  unfold validEntry, createMovie. simpl.
  destruct (InsertMovie.type data); simpl; tauto.
Qed.

Lemma created_id_is_addressable_aux (storage : MemStorage)
    (rnd : nat -> byte) (now : Z) (data : InsertMovie.t) :
  let (movie, storage') := createMovie storage rnd now data in
  Movie.createdAt movie = now
  /\ Movie.updatedAt movie = now
  /\ Response.code (GET_api_movies_id storage' (Movie.id movie)) = 200
  /\ Response.data (GET_api_movies_id storage' (Movie.id movie))
     = Response.One movie.
Proof.
  unfold createMovie. cbv zeta.
  cbn [Movie.id Movie.createdAt Movie.updatedAt].
  unfold GET_api_movies_id, getMovie.
  rewrite (idParamSchema_accepts _ (randomUUID_is_uuid rnd)), get_set_same.
  repeat split.
Qed.

(** X11. What POST does. POST /api/movies answers 201 or 400. A 400
    leaves the store as it was. A 201 carries the created entry: its
    content is within the bounds of the schema, its [createdAt] is the
    time of the request, and GET on its id then answers 200 with the same
    entry. *)
Theorem post_outcome (storage : MemStorage) (rnd : nat -> byte) (now : Z)
    (body : json) :
  let (res, storage') := POST_api_movies storage rnd now body in
  (Response.code res = 201 \/ Response.code res = 400)
  /\ (Response.code res = 400 ->
      storage' = storage /\ Response.message res = "Validation failed")
  /\ (Response.code res = 201 ->
      exists movie,
        Response.data res = Response.One movie
        /\ validEntry movie
        /\ Movie.createdAt movie = now
        /\ Movie.updatedAt movie = now
        /\ Response.code (GET_api_movies_id storage' (Movie.id movie)) = 200
        /\ Response.data (GET_api_movies_id storage' (Movie.id movie))
           = Response.One movie).
Proof.
  unfold POST_api_movies.
  destruct (insertMovieSchema body) as [e|data] eqn:E.
  - split; [now right|]. split; [now split|]. discriminate.
  - pose proof (created_entry_valid storage rnd now body data E) as Hv.
    pose proof (created_id_is_addressable_aux storage rnd now data) as Ha.
    destruct (createMovie storage rnd now data) as [movie storage'].
    simpl in Hv. split; [now left|]. split; [discriminate|].
    intros _. exists movie. destruct Ha as (Hc & Hu & H200 & Hdata).
    split; [reflexivity|]. split; [exact Hv|]. auto.
Qed.

(** The field errors of a rejected object body are the issues of the
    seven fields, in the order of the schema. *)
Lemma insertMovieSchema_rejects (o : list (string * json))
    (e : Zod.Flattened) :
  insertMovieSchema (JObj o) = inl e ->
  Zod.formErrors e = []
  /\ Zod.fieldErrors e
     = (issuesAt "title" (titleSchema (Zod.prop o "title"))
        ++ issuesAt "type" (typeSchema (Zod.prop o "type"))
        ++ issuesAt "director" (directorSchema (Zod.prop o "director"))
        ++ issuesAt "budget" (budgetSchema (Zod.prop o "budget"))
        ++ issuesAt "location" (locationSchema (Zod.prop o "location"))
        ++ issuesAt "duration" (durationSchema (Zod.prop o "duration"))
        ++ issuesAt "yearTime" (yearTimeSchema (Zod.prop o "yearTime")))%list
  /\ Zod.fieldErrors e <> [].
Proof.
  intros E.
  assert (H : Zod.formErrors e = []
    /\ Zod.fieldErrors e
       = (issuesAt "title" (titleSchema (Zod.prop o "title"))
          ++ issuesAt "type" (typeSchema (Zod.prop o "type"))
          ++ issuesAt "director" (directorSchema (Zod.prop o "director"))
          ++ issuesAt "budget" (budgetSchema (Zod.prop o "budget"))
          ++ issuesAt "location" (locationSchema (Zod.prop o "location"))
          ++ issuesAt "duration" (durationSchema (Zod.prop o "duration"))
          ++ issuesAt "yearTime"
               (yearTimeSchema (Zod.prop o "yearTime")))%list).
  { revert E. unfold insertMovieSchema.
    destruct (titleSchema _), (typeSchema _), (directorSchema _),
      (budgetSchema _), (locationSchema _), (durationSchema _),
      (yearTimeSchema _); try discriminate;
      intros H; injection H as <-; split; reflexivity. }
  destruct H as [Hform Hfield]. split; [exact Hform|].
  split; [exact Hfield|].
  rewrite Hfield. intros Hnil.
  repeat (apply app_eq_nil in Hnil;
          let H1 := fresh "Hnil" in destruct Hnil as [H1 Hnil]).
  revert E. unfold insertMovieSchema.
  destruct (titleSchema _), (typeSchema _), (directorSchema _),
    (budgetSchema _), (locationSchema _), (durationSchema _),
    (yearTimeSchema _); discriminate.
Qed.

Lemma issuesAt_named {A : Type} (key : string) (r : Zod.parsed A) :
  In key fieldNames ->
  (forall issues, r = inl issues -> issues <> []) ->
  Forall (fun kv => In (fst kv) fieldNames /\ snd kv <> []) (issuesAt key r).
Proof.
  intros Hk Hr. destruct r as [issues|a]; simpl; constructor; auto.
Qed.

(** X12. What a rejected create reports. When POST rejects an object
    body, the [errors] of the 400 are not empty, every entry is under one
    of the seven field names and has at least one message, and a title
    shorter than two characters is reported under [title] with the
    message "Title must be at least 2 characters". *)
Theorem post_rejection_errors (storage : MemStorage) (rnd : nat -> byte)
    (now : Z) (o : list (string * json)) :
  Response.code (fst (POST_api_movies storage rnd now (JObj o))) = 400 ->
  exists errors,
    Response.errors (fst (POST_api_movies storage rnd now (JObj o)))
    = Some errors
    /\ errors <> []
    /\ Forall (fun kv => In (fst kv) fieldNames /\ snd kv <> []) errors
    /\ (forall s,
          Zod.prop o "title" = Some (JStr s) ->
          (String.length s < 2)%nat ->
          In ("title", ["Title must be at least 2 characters"]) errors).
Proof.
  unfold POST_api_movies.
  destruct (insertMovieSchema (JObj o)) as [e|data] eqn:E.
  - intros _. simpl. exists (Zod.fieldErrors e).
    destruct (insertMovieSchema_rejects o e E) as (_ & Hf & Hne).
    split; [reflexivity|]. split; [exact Hne|]. split.
    + rewrite Hf. unfold titleSchema, directorSchema, budgetSchema,
        locationSchema, durationSchema, yearTimeSchema.
      rewrite !Forall_app.
      repeat split; apply issuesAt_named;
        solve [ unfold fieldNames; simpl; tauto
              | intros issues; apply string_min_max_issues
              | intros issues; apply typeSchema_issues ].
    + intros s Hs Hlen. rewrite Hf, Hs. apply in_or_app. left.
      unfold titleSchema, Zod.string_min_max.
      destruct (Nat.ltb_spec (String.length s) 2); [|lia].
      destruct (Nat.ltb_spec 255 (String.length s)); [lia|].
      simpl. now left.
  - destruct (createMovie storage rnd now data). discriminate.
Qed.

Lemma post_rejection_errors_witness :
  let o := [("title", JStr "D"); ("type", JStr "Movie")] in
  let res := fst (POST_api_movies newMemStorage (fun _ => x00) 1 (JObj o)) in
  exists errors,
    Response.errors res = Some errors
    /\ errors <> []
    /\ Forall (fun kv => In (fst kv) fieldNames /\ snd kv <> []) errors
    /\ (forall s,
          Zod.prop o "title" = Some (JStr s) ->
          (String.length s < 2)%nat ->
          In ("title", ["Title must be at least 2 characters"]) errors).
Proof.
  intros o res.
  apply (post_rejection_errors newMemStorage (fun _ => x00) 1 o).
  reflexivity.
Defined.

(* ================================================================== *)
(** * What an update may send *)
(* ================================================================== *)

Lemma optional_string_accepts (lo hi : nat) (loMsg hiMsg : string)
    (v : option json) (f : option string) :
  Zod.optional (Zod.string_min_max lo loMsg hi hiMsg) v = inr f
  <-> match f with
      | Some s => v = Some (JStr s) /\ within lo hi s
      | None => v = None
      end.
Proof.
  unfold Zod.optional. destruct v as [j|].
  - destruct (Zod.string_min_max lo loMsg hi hiMsg (Some j)) as [e|s0] eqn:E.
    + split; [discriminate|]. destruct f as [s|]; [|discriminate].
      intros H. apply (string_min_max_accepts lo hi loMsg hiMsg) in H.
      congruence.
    + apply string_min_max_accepts in E. split.
      * intros H. injection H as <-. exact E.
      * destruct f as [s|]; [|discriminate].
        intros [H _]. destruct E as [E _]. congruence.
  - split.
    + intros H. now injection H as <-.
    + destruct f as [s|]; [intros [H _]; discriminate|reflexivity].
Qed.

Lemma optional_type_accepts (v : option json) (f : option MovieType) :
  Zod.optional typeSchema v = inr f
  <-> match f with
      | Some t => v = Some (JStr (literal t))
      | None => v = None
      end.
Proof.
  unfold Zod.optional. destruct v as [j|].
  - destruct (typeSchema (Some j)) as [e|t0] eqn:E.
    + split; [discriminate|]. destruct f as [t|]; [|discriminate].
      intros H. apply typeSchema_accepts in H. congruence.
    + apply typeSchema_accepts in E. split.
      * intros H. injection H as <-. exact E.
      * destruct f as [t|]; [|discriminate].
        intros H. rewrite E in H. injection H as H.
        destruct t0, t; try discriminate; reflexivity.
  - split.
    + intros H. now injection H as <-.
    + destruct f as [t|]; [discriminate|reflexivity].
Qed.

(** What [updateSchema] yields was sent, within the bounds, and is not
    empty. *)
Lemma updateSchema_sound (o : list (string * json))
    (data : PartialInsertMovie.t) :
  updateSchema (JObj o) = inr data ->
  sentOrAbsent o "title" 2 255 (PartialInsertMovie.title data)
  /\ match PartialInsertMovie.type data with
     | Some t => Zod.prop o "type" = Some (JStr (literal t))
     | None => Zod.prop o "type" = None
     end
  /\ sentOrAbsent o "director" 1 255 (PartialInsertMovie.director data)
  /\ sentOrAbsent o "budget" 1 100 (PartialInsertMovie.budget data)
  /\ sentOrAbsent o "location" 1 255 (PartialInsertMovie.location data)
  /\ sentOrAbsent o "duration" 1 50 (PartialInsertMovie.duration data)
  /\ sentOrAbsent o "yearTime" 1 50 (PartialInsertMovie.yearTime data)
  /\ (0 < PartialInsertMovie.keyCount data)%nat.
Proof.
  unfold updateSchema, insertMovieSchema_partial.
  destruct (Zod.optional titleSchema _) eqn:E1,
    (Zod.optional typeSchema _) eqn:E2,
    (Zod.optional directorSchema _) eqn:E3,
    (Zod.optional budgetSchema _) eqn:E4,
    (Zod.optional locationSchema _) eqn:E5,
    (Zod.optional durationSchema _) eqn:E6,
    (Zod.optional yearTimeSchema _) eqn:E7; try discriminate.
  match goal with
  | |- context [(0 <? ?n)%nat] =>
      destruct (Nat.ltb_spec 0 n) as [Hk|Hk]; [|discriminate]
  end.
  intros H. injection H as <-. cbn [PartialInsertMovie.title
    PartialInsertMovie.type PartialInsertMovie.director
    PartialInsertMovie.budget PartialInsertMovie.location
    PartialInsertMovie.duration PartialInsertMovie.yearTime].
  apply optional_string_accepts in E1, E3, E4, E5, E6, E7.
  apply optional_type_accepts in E2.
  unfold sentOrAbsent, sent. tauto.
Qed.

(** X13. What an update request may send. [updateSchema] accepts an
    object body exactly when every one of the seven fields that the body
    has is a string within the bounds of the field (for [type], one of the
    two literals) and the body has at least one of them; a field the body
    does not have stays absent from the parsed data. *)
Theorem updateSchema_accepts (o : list (string * json))
    (data : PartialInsertMovie.t) :
  updateSchema (JObj o) = inr data
  <-> sentOrAbsent o "title" 2 255 (PartialInsertMovie.title data)
      /\ match PartialInsertMovie.type data with
         | Some t => Zod.prop o "type" = Some (JStr (literal t))
         | None => Zod.prop o "type" = None
         end
      /\ sentOrAbsent o "director" 1 255 (PartialInsertMovie.director data)
      /\ sentOrAbsent o "budget" 1 100 (PartialInsertMovie.budget data)
      /\ sentOrAbsent o "location" 1 255 (PartialInsertMovie.location data)
      /\ sentOrAbsent o "duration" 1 50 (PartialInsertMovie.duration data)
      /\ sentOrAbsent o "yearTime" 1 50 (PartialInsertMovie.yearTime data)
      /\ (0 < PartialInsertMovie.keyCount data)%nat.
Proof.
  split; [apply updateSchema_sound|].
  unfold updateSchema, insertMovieSchema_partial.
  unfold sentOrAbsent, sent.
  intros (E1 & E2 & E3 & E4 & E5 & E6 & E7 & Hk).
  apply (optional_string_accepts _ _
           "Title must be at least 2 characters"
           "String must contain at most 255 character(s)") in E1.
  apply optional_type_accepts in E2.
  apply (optional_string_accepts _ _ "Director is required"
           "String must contain at most 255 character(s)") in E3.
  apply (optional_string_accepts _ _ "Budget is required"
           "String must contain at most 100 character(s)") in E4.
  apply (optional_string_accepts _ _ "Location is required"
           "String must contain at most 255 character(s)") in E5.
  apply (optional_string_accepts _ _ "Duration is required"
           "String must contain at most 50 character(s)") in E6.
  apply (optional_string_accepts _ _ "Year/Time is required"
           "String must contain at most 50 character(s)") in E7.
  fold titleSchema in E1. fold directorSchema in E3.
  fold budgetSchema in E4. fold locationSchema in E5.
  fold durationSchema in E6. fold yearTimeSchema in E7.
  rewrite E1, E2, E3, E4, E5, E6, E7.
  destruct data as [t ty d b l du y].
  cbn [PartialInsertMovie.title PartialInsertMovie.type
    PartialInsertMovie.director PartialInsertMovie.budget
    PartialInsertMovie.location PartialInsertMovie.duration
    PartialInsertMovie.yearTime] in *.
  destruct (Nat.ltb_spec 0
    (PartialInsertMovie.keyCount
       {| PartialInsertMovie.title := t; PartialInsertMovie.type := ty;
          PartialInsertMovie.director := d;
          PartialInsertMovie.budget := b;
          PartialInsertMovie.location := l;
          PartialInsertMovie.duration := du;
          PartialInsertMovie.yearTime := y |})); [reflexivity|lia].
Qed.

(* ================================================================== *)
(** * What PUT and DELETE do *)
(* ================================================================== *)

(** X14. What PUT does. PUT /api/movies/:id answers 200, 400 or 404,
    never 500: the throw of [updateMovie] is not reachable from the
    route. Any answer but 200 leaves the store as it was. A 200 carries
    the merged entry, which is then what the store holds under the id;
    its [id] and [createdAt] are those of the existing entry, its
    [updatedAt] is the time of the request, and the count and the entries
    under other ids are unchanged. *)
Theorem put_outcome (storage : MemStorage) (now : Z) (idParam : string)
    (body : json) :
  let (res, storage') := PUT_api_movies_id storage now idParam body in
  (Response.code res = 200 \/ Response.code res = 400
   \/ Response.code res = 404)
  /\ (Response.code res <> 200 -> storage' = storage)
  /\ (Response.code res = 200 ->
      exists existing updated,
        getMovie storage idParam = Some existing
        /\ Response.data res = Response.One updated
        /\ getMovie storage' idParam = Some updated
        /\ Movie.id updated = Movie.id existing
        /\ Movie.createdAt updated = Movie.createdAt existing
        /\ Movie.updatedAt updated = now
        /\ getMoviesCount storage' = getMoviesCount storage
        /\ (forall other, other <> idParam ->
              getMovie storage' other = getMovie storage other)).
Proof.
  unfold PUT_api_movies_id, idParamSchema.
  destruct (Zod.uuid idParam).
  2: { split; [auto|]. split; [reflexivity|discriminate]. }
  destruct (updateSchema body) as [e|data].
  { split; [auto|]. split; [reflexivity|discriminate]. }
  destruct (getMovie storage idParam) as [existing|] eqn:G.
  2: { split; [auto|]. split; [reflexivity|discriminate]. }
  unfold updateMovie. unfold getMovie in G. rewrite G.
  split; [auto|]. split; [intros H; now elim H|].
  intros _. eexists. eexists.
  split; [reflexivity|]. split; [reflexivity|].
  unfold getMovie, getMoviesCount.
  split; [apply get_set_same|].
  split; [reflexivity|]. split; [reflexivity|]. split; [reflexivity|].
  split.
  - rewrite size_set. now rewrite G.
  - intros other Hne. apply get_set_other. congruence.
Qed.

(** X15. The order of the checks of PUT. The id is checked first, the
    body second, the store last: a malformed id is answered 400 "Invalid
    movie ID format" whatever the body, a rejected body is answered 400
    "Validation failed" even when no entry has the id, and 404 is the
    answer exactly when id and body are accepted and the id is absent. *)
Theorem put_check_order (storage : MemStorage) (now : Z) (idParam : string)
    (body : json) :
  let res := fst (PUT_api_movies_id storage now idParam body) in
  (Zod.uuid idParam = false ->
   Response.code res = 400
   /\ Response.message res = "Invalid movie ID format"
   /\ Response.errors res = Some [("id", ["Invalid movie ID format"])])
  /\ (Zod.uuid idParam = true ->
      forall e, updateSchema body = inl e ->
      Response.code res = 400
      /\ Response.message res = "Validation failed"
      /\ Response.errors res = Some (Zod.fieldErrors e))
  /\ (Response.code res = 404
      <-> Zod.uuid idParam = true
          /\ (exists data, updateSchema body = inr data)
          /\ getMovie storage idParam = None).
Proof.
  unfold PUT_api_movies_id, idParamSchema.
  destruct (Zod.uuid idParam) eqn:U.
  - split; [discriminate|].
    destruct (updateSchema body) as [e|data] eqn:E.
    + split.
      * intros _ e' He. injection He as <-. repeat split.
      * split; [discriminate|].
        intros (_ & [d Hd] & _). discriminate.
    + split; [intros _ e He; discriminate|].
      destruct (getMovie storage idParam) as [existing|] eqn:G.
      * unfold updateMovie. unfold getMovie in G. rewrite G.
        split; [discriminate|]. intros (_ & _ & H). discriminate.
      * split; [|reflexivity]. intros _. eauto.
  - split; [intros _; repeat split|].
    split; [discriminate|].
    split; [discriminate|]. intros (H & _). discriminate.
Qed.

(** X16. What DELETE does. DELETE /api/movies/:id answers 200 exactly
    when the id is well formed and present, 400 when it is malformed and
    404 when it is well formed and absent. Any answer but 200 leaves the
    store as it was; after a 200 the id is absent and every other id
    answers as before. *)
Theorem delete_outcome (storage : MemStorage) (idParam : string) :
  let (res, storage') := DELETE_api_movies_id storage idParam in
  (Response.code res = 200
   <-> Zod.uuid idParam = true /\ getMovie storage idParam <> None)
  /\ (Response.code res = 400 <-> Zod.uuid idParam = false)
  /\ (Response.code res = 404
      <-> Zod.uuid idParam = true /\ getMovie storage idParam = None)
  /\ (Response.code res <> 200 -> storage' = storage)
  /\ (Response.code res = 200 ->
      getMovie storage' idParam = None
      /\ forall other, other <> idParam ->
           getMovie storage' other = getMovie storage other).
Proof.
  unfold DELETE_api_movies_id, idParamSchema.
  destruct (Zod.uuid idParam) eqn:U.
  - destruct (getMovie storage idParam) as [existing|] eqn:G.
    + split; [split; [intros _; split; [reflexivity|discriminate]
                     |reflexivity]|].
      split; [split; discriminate|].
      split; [split; [discriminate|intros [_ H]; discriminate]|].
      split; [intros H; now elim H|].
      intros _. unfold deleteMovie, getMovie. split.
      * apply get_delete_same.
      * intros other Hne. apply get_delete_other. congruence.
    + split; [split; [discriminate|intros [_ H]; now elim H]|].
      split; [split; discriminate|].
      split; [split; [intros _; now split|reflexivity]|].
      split; [reflexivity|discriminate].
  - split; [split; [discriminate|intros [H _]; discriminate]|].
    split; [split; reflexivity|].
    split; [split; [discriminate|intros [H _]; discriminate]|].
    split; [reflexivity|discriminate].
Qed.

(* ================================================================== *)
(** * Keys the schemas do not know *)
(* ================================================================== *)

(** X17. The schemas read the seven field names and nothing else: two
    object bodies that agree on those seven keys parse alike and are
    answered alike by POST and PUT, so a key such as [id], [createdAt]
    or [updatedAt] in a body never reaches the store. *)
Theorem unknown_keys_ignored (o o' : list (string * json)) :
  (forall k, In k fieldNames -> Zod.prop o k = Zod.prop o' k) ->
  insertMovieSchema (JObj o) = insertMovieSchema (JObj o')
  /\ updateSchema (JObj o) = updateSchema (JObj o')
  /\ (forall storage rnd now,
        POST_api_movies storage rnd now (JObj o)
        = POST_api_movies storage rnd now (JObj o'))
  /\ (forall storage now idParam,
        PUT_api_movies_id storage now idParam (JObj o)
        = PUT_api_movies_id storage now idParam (JObj o')).
Proof.
  intros H.
  assert (H1 : Zod.prop o "title" = Zod.prop o' "title")
    by (apply H; simpl; tauto).
  assert (H2 : Zod.prop o "type" = Zod.prop o' "type")
    by (apply H; simpl; tauto).
  assert (H3 : Zod.prop o "director" = Zod.prop o' "director")
    by (apply H; simpl; tauto).
  assert (H4 : Zod.prop o "budget" = Zod.prop o' "budget")
    by (apply H; simpl; tauto).
  assert (H5 : Zod.prop o "location" = Zod.prop o' "location")
    by (apply H; simpl; tauto).
  assert (H6 : Zod.prop o "duration" = Zod.prop o' "duration")
    by (apply H; simpl; tauto).
  assert (H7 : Zod.prop o "yearTime" = Zod.prop o' "yearTime")
    by (apply H; simpl; tauto).
  assert (Ei : insertMovieSchema (JObj o) = insertMovieSchema (JObj o')).
  { unfold insertMovieSchema. now rewrite H1, H2, H3, H4, H5, H6, H7. }
  assert (Eu : updateSchema (JObj o) = updateSchema (JObj o')).
  { unfold updateSchema, insertMovieSchema_partial.
    now rewrite H1, H2, H3, H4, H5, H6, H7. }
  split; [exact Ei|]. split; [exact Eu|]. split.
  - intros storage rnd now. unfold POST_api_movies. now rewrite Ei.
  - intros storage now idParam. unfold PUT_api_movies_id. now rewrite Eu.
Qed.

Lemma unknown_keys_ignored_witness :
  let o := [("budget", JStr "$1M")] in
  let o' :=
    [("id", JStr "mine"); ("budget", JStr "$1M"); ("createdAt", JNum 0)] in
  insertMovieSchema (JObj o) = insertMovieSchema (JObj o')
  /\ updateSchema (JObj o) = updateSchema (JObj o')
  /\ (forall storage rnd now,
        POST_api_movies storage rnd now (JObj o)
        = POST_api_movies storage rnd now (JObj o'))
  /\ (forall storage now idParam,
        PUT_api_movies_id storage now idParam (JObj o)
        = PUT_api_movies_id storage now idParam (JObj o')).
Proof.
  intros o o'. apply (unknown_keys_ignored o o').
  intros k Hk. simpl in Hk.
  destruct Hk as [<-|[<-|[<-|[<-|[<-|[<-|[<-|[]]]]]]]]; reflexivity.
Defined.

(* ================================================================== *)
(** * The stores behind the routes *)
(* ================================================================== *)

Lemma updateSchema_object (body : json) (data : PartialInsertMovie.t) :
  updateSchema body = inr data -> exists o, body = JObj o.
Proof. destruct body; try discriminate. eauto. Qed.

Lemma spread_within (lo hi : nat) (o : list (string * json)) (key : string)
    (existing : string) (f : option string) :
  within lo hi existing ->
  sentOrAbsent o key lo hi f ->
  within lo hi (spread existing f).
Proof. destruct f as [s|]; simpl; auto. now intros _ [_ H]. Qed.

Lemma updated_entry_valid (this : MemStorage) (id : string) (body : json)
    (data : PartialInsertMovie.t) (now : Z) (existing updated : Movie.t)
    (this' : MemStorage) :
  updateSchema body = inr data ->
  JSMap.get this id = Some existing ->
  validEntry existing ->
  updateMovie this id data now = inr (updated, this') ->
  validEntry updated.
Proof.
  intros Hs G Hv Hu. destruct (updateSchema_object body data Hs) as [o ->].
  apply updateSchema_sound in Hs.
  destruct Hs as (E1 & E2 & E3 & E4 & E5 & E6 & E7 & _).
  unfold updateMovie in Hu. rewrite G in Hu. injection Hu as <- _.
  destruct Hv as (V1 & V2 & V3 & V4 & V5 & V6 & V7).
  unfold validEntry. simpl.
  split; [eapply spread_within; eauto|].
  split.
  { destruct (PartialInsertMovie.type data) as [[|]|]; simpl; auto. }
  repeat split; eapply spread_within; eauto.
Qed.

Lemma wellFormedStore_post (storage : MemStorage) (rnd : nat -> byte)
    (now : Z) (body : json) :
  wellFormedStore storage ->
  wellFormedStore (snd (POST_api_movies storage rnd now body)).
Proof.
  intros (Hnd & Hk & Hu & Hv). unfold POST_api_movies.
  destruct (insertMovieSchema body) as [e|data] eqn:E;
    [simpl; repeat split; assumption|].
  pose proof (created_entry_valid storage rnd now body data E) as Hnew.
  unfold createMovie in *. simpl in *.
  split; [now apply NoDup_keys_set|].
  split; [now apply keyedById_set|]. split.
  - intros k Hin. apply In_keys_set in Hin.
    destruct Hin as [->|Hin]; [apply randomUUID_is_uuid|auto].
  - rewrite Forall_forall in *. intros m Hm.
    apply In_values_set in Hm. destruct Hm as [->|Hm]; auto.
Qed.

Lemma wellFormedStore_put (storage : MemStorage) (now : Z)
    (idParam : string) (body : json) :
  wellFormedStore storage ->
  wellFormedStore (snd (PUT_api_movies_id storage now idParam body)).
Proof.
  intros Hw. unfold PUT_api_movies_id.
  destruct (idParamSchema idParam) as [e|id]; [exact Hw|].
  destruct (updateSchema body) as [e|data] eqn:E; [exact Hw|].
  destruct (getMovie storage id) as [existing|] eqn:G; [|exact Hw].
  destruct (updateMovie storage id data now) as [msg|[updated storage']]
    eqn:Hu; [exact Hw|].
  destruct Hw as (Hnd & Hk & Huu & Hv). simpl.
  assert (Hvalid : validEntry updated).
  { apply (updated_entry_valid storage id body data now existing updated
             storage'); auto.
    rewrite Forall_forall in Hv. apply Hv.
    now apply (get_In_values storage id). }
  unfold updateMovie in Hu. unfold getMovie in G. rewrite G in Hu.
  injection Hu as Eu <-.
  split; [now apply NoDup_keys_set|]. split.
  - apply keyedById_set; auto. simpl.
    now apply (keyedById_get storage).
  - split.
    + intros k Hin. rewrite (keys_set_present _ _ _ _ G) in Hin. auto.
    + rewrite Forall_forall in *. intros m Hm.
      apply In_values_set in Hm. destruct Hm as [->|Hm]; auto.
      now rewrite Eu.
Qed.

Lemma wellFormedStore_delete (storage : MemStorage) (idParam : string) :
  wellFormedStore storage ->
  wellFormedStore (snd (DELETE_api_movies_id storage idParam)).
Proof.
  intros Hw. unfold DELETE_api_movies_id.
  destruct (idParamSchema idParam) as [e|id]; [exact Hw|].
  destruct (getMovie storage id) as [existing|]; [|exact Hw].
  destruct Hw as (Hnd & Hk & Hu & Hv). simpl. unfold deleteMovie.
  split; [now apply NoDup_keys_delete|].
  split; [now apply keyedById_delete|]. split.
  - intros k Hin. apply In_keys_delete in Hin. auto.
  - rewrite Forall_forall in *. intros m Hm.
    apply In_values_delete in Hm. auto.
Qed.

Lemma served_wellFormed (storage : MemStorage) :
  served storage -> wellFormedStore storage.
Proof.
  induction 1.
  - repeat split; try constructor. intros k [].
  - now apply wellFormedStore_post.
  - now apply wellFormedStore_put.
  - now apply wellFormedStore_delete.
Qed.

(** X18. What the routes keep true of the store. In every store that
    requests to POST, PUT and DELETE can produce, no two entries share an
    id, and every entry has a well-formed id, has content within the
    bounds of the schema (whatever updates it went through), and is what
    GET on its id answers, with a 200. *)
Theorem served_entries_valid (storage : MemStorage) :
  served storage ->
  NoDup (map Movie.id (JSMap.values storage))
  /\ forall m, In m (JSMap.values storage) ->
       validEntry m
       /\ Zod.uuid (Movie.id m) = true
       /\ Response.code (GET_api_movies_id storage (Movie.id m)) = 200
       /\ Response.data (GET_api_movies_id storage (Movie.id m))
          = Response.One m.
Proof.
  intros Hs. destruct (served_wellFormed storage Hs) as (Hnd & Hk & Hu & Hv).
  split; [now rewrite ids_are_keys|].
  intros m Hm.
  assert (Huuid : Zod.uuid (Movie.id m) = true).
  { apply Hu. rewrite <- (ids_are_keys storage Hk). now apply in_map. }
  split; [rewrite Forall_forall in Hv; auto|].
  split; [exact Huuid|].
  unfold GET_api_movies_id, getMovie.
  rewrite (idParamSchema_accepts _ Huuid).
  rewrite (In_values_get storage m Hnd Hk Hm). split; reflexivity.
Qed.

Lemma servedTwice_served : served servedTwice.
Proof. apply served_put, served_post, served_new. Defined.

Lemma served_entries_valid_witness :
  map Movie.budget (JSMap.values servedTwice) = ["$1M"]
  /\ NoDup (map Movie.id (JSMap.values servedTwice))
  /\ forall m, In m (JSMap.values servedTwice) ->
       validEntry m
       /\ Zod.uuid (Movie.id m) = true
       /\ Response.code (GET_api_movies_id servedTwice (Movie.id m)) = 200
       /\ Response.data (GET_api_movies_id servedTwice (Movie.id m))
          = Response.One m.
Proof.
  split; [reflexivity|].
  apply (served_entries_valid servedTwice servedTwice_served).
Defined.

(* ================================================================== *)
(** * The page of the client *)
(* ================================================================== *)

Lemma has_In (ids : list string) (id : string) :
  has ids id = true <-> In id ids.
Proof.
  unfold has. rewrite existsb_exists. split.
  - intros [x [Hx E]]. apply String.eqb_eq in E. now subst.
  - intros H. exists id. split; [assumption|apply String.eqb_refl].
Qed.

(** When none of the ids that arrive is shown yet, all of [data] is
    appended. *)
Lemma appendNewMovies_disjoint (prev data : list Movie.t) :
  (forall m, In m data -> ~ In (Movie.id m) (map Movie.id prev)) ->
  appendNewMovies prev data = (prev ++ data)%list.
Proof.
  intros H. unfold appendNewMovies. f_equal.
  induction data as [|x r IH]; simpl; auto.
  destruct (has (map Movie.id prev) (Movie.id x)) eqn:E; simpl.
  - apply has_In in E. exfalso. apply (H x); simpl; auto.
  - f_equal. apply IH. intros m Hm. apply H. simpl. auto.
Qed.

(** X19. The updater of the shown entries. [appendNewMovies] keeps what
    is shown, in place, as the beginning of its result; after it every id
    of the arrived page is shown; it adds no entry whose id is shown
    already, so shown ids stay distinct when those of the page are; and a
    page that arrives a second time adds nothing. *)
Theorem appendNewMovies_properties (prev data : list Movie.t) :
  let shown := appendNewMovies prev data in
  firstn (List.length prev) shown = prev
  /\ (forall m, In m data -> In (Movie.id m) (map Movie.id shown))
  /\ (NoDup (map Movie.id prev) -> NoDup (map Movie.id data) ->
      NoDup (map Movie.id shown))
  /\ appendNewMovies shown data = shown.
Proof.
  intros shown. unfold shown, appendNewMovies. cbv zeta.
  set (fresh := filter
         (fun m => negb (has (map Movie.id prev) (Movie.id m))) data).
  split; [|split; [|split]].
  - rewrite firstn_app, Nat.sub_diag, firstn_all. simpl.
    now rewrite app_nil_r.
  - intros m Hm. rewrite map_app. apply in_or_app.
    destruct (has (map Movie.id prev) (Movie.id m)) eqn:E.
    + left. now apply has_In.
    + right. apply in_map. unfold fresh. apply filter_In.
      split; [assumption|]. now rewrite E.
  - intros Hp Hd. rewrite map_app. apply NoDup_app; auto.
    + unfold fresh. clear - Hd.
      induction data as [|x r IH]; simpl; [constructor|].
      inversion_clear Hd as [|? ? Hnot Hr].
      destruct (negb (has (map Movie.id prev) (Movie.id x))); simpl; auto.
      constructor; auto. intros Hin. apply Hnot.
      apply in_map_iff in Hin. destruct Hin as [y [Ey Hy]].
      apply filter_In in Hy. rewrite <- Ey. apply in_map. tauto.
    + intros id Hid Hin. apply in_map_iff in Hin.
      destruct Hin as [y [Ey Hy]]. unfold fresh in Hy.
      apply filter_In in Hy. destruct Hy as [_ Hy].
      apply negb_true_iff in Hy.
      assert (has (map Movie.id prev) (Movie.id y) = true)
        by (apply has_In; now rewrite Ey).
      congruence.
  - set (p := fun m => negb (has (map Movie.id (prev ++ fresh))
                                 (Movie.id m))).
    assert (Hall : forall m, In m data -> p m = false).
    { intros m Hm. unfold p. apply negb_false_iff. apply has_In.
      rewrite map_app. apply in_or_app.
      destruct (has (map Movie.id prev) (Movie.id m)) eqn:E.
      - left. now apply has_In.
      - right. apply in_map. unfold fresh. apply filter_In.
        split; [assumption|]. now rewrite E. }
    assert (E : filter p data = []).
    { clearbody p. clear - Hall. revert Hall.
      induction data as [|x r IH]; simpl; auto. intros Hall.
      rewrite (Hall x) by auto. apply IH.
      intros m Hm. apply Hall. auto. }
    rewrite E. apply app_nil_r.
Qed.

Lemma NoDup_app_disjoint {A : Type} (l1 l2 : list A) (x : A) :
  NoDup (l1 ++ l2) -> In x l1 -> In x l2 -> False.
Proof.
  induction l1 as [|a r IH]; simpl; [tauto|].
  intros Hnd. inversion_clear Hnd as [|? ? Hnot Hr].
  intros [->|Hin] H2; auto.
  apply Hnot. apply in_or_app. now right.
Qed.

Lemma In_firstn {A : Type} (n : nat) (l : list A) (x : A) :
  In x (firstn n l) -> In x l.
Proof.
  revert l. induction n as [|n IH]; intros [|a l]; simpl; try tauto.
  intros [H|H]; auto.
Qed.

Lemma allMovies_ids_distinct (this : MemStorage) :
  NoDup (map Movie.id (JSMap.values this)) ->
  NoDup (map Movie.id (allMovies this)).
Proof.
  apply Permutation_NoDup, Permutation_map, Permutation_sym, sort_perm.
Qed.

(** X20. The client's walk through the pages. When the ids of the store
    are distinct and the store does not change, feeding the pages
    [1 .. k] of size 10, in order, to [appendNewMovies] from an empty
    screen shows the first [10 * k] entries of the listing, nothing lost
    and nothing twice; once [10 * k] reaches the count, the whole listing
    is shown, newest first. *)
Theorem client_walk (this : MemStorage) (k : nat) :
  NoDup (map Movie.id (JSMap.values this)) ->
  let shown :=
    fold_left appendNewMovies
      (map (fun p => getAllMovies this (Z.of_nat p) 10) (seq 1 k)) [] in
  shown = firstn (k * 10) (allMovies this)
  /\ (getMoviesCount this <= Z.of_nat k * 10 -> shown = allMovies this).
Proof.
  intros Hnd shown.
  assert (E : shown = firstn (k * 10) (allMovies this)).
  { unfold shown. clear shown. induction k as [|k IH]; [reflexivity|].
    rewrite seq_S, map_app, fold_left_app, IH.
    cbn [map fold_left].
    rewrite getAllMovies_window by lia. fold (allMovies this).
    replace (Z.to_nat ((Z.of_nat (1 + k) - 1) * 10)) with (k * 10)%nat
      by lia.
    replace (Z.to_nat 10) with 10%nat by reflexivity.
    rewrite appendNewMovies_disjoint.
    - rewrite <- firstn_plus. f_equal. lia.
    - intros m Hm Hin.
      pose proof (allMovies_ids_distinct this Hnd) as Hall.
      rewrite <- (firstn_skipn (k * 10) (allMovies this)) in Hall.
      rewrite map_app in Hall.
      apply (NoDup_app_disjoint _ _ (Movie.id m) Hall Hin).
      apply in_map. eapply In_firstn. exact Hm. }
  split; [exact E|].
  intros Hcount. rewrite E. apply firstn_all2.
  rewrite count_is_length in Hcount. lia.
Qed.

Lemma client_walk_witness :
  let this :=
    [("a", sample "a" 5); ("b", sample "b" 9); ("c", sample "c" 5)] in
  let shown :=
    fold_left appendNewMovies
      (map (fun p => getAllMovies this (Z.of_nat p) 10) (seq 1 1)) [] in
  shown = [sample "b" 9; sample "a" 5; sample "c" 5]
  /\ shown = firstn (1 * 10) (allMovies this)
  /\ (getMoviesCount this <= Z.of_nat 1 * 10 -> shown = allMovies this).
Proof.
  intros this shown. split; [reflexivity|].
  apply (client_walk this 1). simpl.
  repeat constructor; simpl; intuition discriminate.
Defined.

(** X21. The store does not check its arguments: [getAllMovies] returns
    nothing for page 0, whatever the positive page size, and nothing for
    page size 0, whatever the positive page. *)
Theorem getAllMovies_zero (this : MemStorage) (n : Z) :
  1 <= n ->
  getAllMovies this 0 n = [] /\ getAllMovies this n 0 = [].
Proof.
  intros Hn. unfold getAllMovies, JSArray.slice. cbv zeta. split.
  - destruct (Z.ltb_spec ((0 - 1) * n) 0); [|lia].
    destruct (Z.ltb_spec ((0 - 1) * n + n) 0); [lia|].
    match goal with
    | |- firstn ?a _ = _ => replace a with 0%nat by lia
    end.
    reflexivity.
  - rewrite Z.mul_0_r, Z.add_0_r. simpl (0 <? 0).
    match goal with
    | |- firstn ?a _ = _ => replace a with 0%nat by lia
    end.
    reflexivity.
Qed.

Lemma getAllMovies_zero_witness :
  let this :=
    [("a", sample "a" 5); ("b", sample "b" 9); ("c", sample "c" 5)] in
  getAllMovies this 0 2 = [] /\ getAllMovies this 2 0 = [].
Proof. intros this. apply (getAllMovies_zero this 2). lia. Defined.
